(** * ntl::Sockaddr (ntlSockaddr.hpp): a byte-level model and its properties

  The class [ntl::Sockaddr] wraps one [SOCKADDR_STORAGE] and reads or
  writes it through the [SOCKADDR_IN] and [SOCKADDR_IN6] layouts.  The
  model keeps exactly that: an instance is the list of the bytes of its
  [saddr] member, every field access is a little-endian load or store at
  the field's offset, and [ZeroMemory], [CopyMemory] and [memcmp] act on
  the bytes. *)

From Stdlib Require Import ZArith Lia.
From stdpp Require Import base list strings.

Local Open Scope Z_scope.

(** ** Winsock declarations used by the class

  The layouts and constants below are those of the Windows headers the
  source includes ([Winsock2.h], [Ws2tcpip.h]); the target is
  little-endian. *)
Module Winsock.

Definition AF_UNSPEC : Z := 0.
Definition AF_INET : Z := 2.
Definition AF_INET6 : Z := 23.

Definition sizeof_SOCKADDR_STORAGE : nat := 128.
Definition sizeof_SOCKADDR_IN : nat := 16.
Definition sizeof_SOCKADDR_IN6 : nat := 28.

(** Field offsets.  [ss_family], [sin_family] and [sin6_family] share
    offset 0; [sin_port] and [sin6_port] share offset 2. *)
Definition ss_family_offset : nat := 0.
Definition sin_port_offset : nat := 2.
Definition sin_addr_offset : nat := 4.
Definition sin6_port_offset : nat := 2.
Definition sin6_flowinfo_offset : nat := 4.
Definition sin6_addr_offset : nat := 8.
Definition sin6_scope_id_offset : nat := 24.

(** [IN6ADDR_V4MAPPEDPREFIX_INIT]: ten zero bytes, two 0xff bytes, four
    zero bytes. *)
Definition IN6ADDR_V4MAPPEDPREFIX_INIT : list Z :=
  [0; 0; 0; 0; 0; 0; 0; 0; 0; 0; 0xff; 0xff; 0; 0; 0; 0].

(** [htons] and [ntohs] on a little-endian host: exchange the two bytes
    of a 16-bit value. *)
Definition htons (x : Z) : Z := (x mod 256) * 256 + (x / 256) mod 256.
Definition ntohs (x : Z) : Z := (x mod 256) * 256 + (x / 256) mod 256.

(** [ZeroMemory(dst, n)]: the first [n] bytes of [dst] become zero. *)
Definition ZeroMemory (dst : list Z) (n : nat) : list Z :=
  replicate n 0 ++ drop n dst.

(** [CopyMemory(dst, src, n)]: the first [n] bytes of [dst] become the
    first [n] bytes of [src]. *)
Definition CopyMemory (dst src : list Z) (n : nat) : list Z :=
  take n src ++ drop n dst.

(** [memcmp(a, b, n)]: zero when the first [n] bytes agree, otherwise the
    sign of the first difference. *)
Fixpoint memcmp (a b : list Z) (n : nat) : Z :=
  match n with
  | O => 0
  | S n' =>
      match a, b with
      | x :: a', y :: b' =>
          if x <? y then -1 else if y <? x then 1 else memcmp a' b' n'
      | _, _ => 0
      end
  end.

(** Little-endian loads and stores of 8, 16 and 32 bit fields. *)
Definition load8 (off : nat) (m : list Z) : Z := m !!! off.
Definition store8 (off : nat) (v : Z) (m : list Z) : list Z :=
  <[off := v mod 256]> m.

Definition load16 (off : nat) (m : list Z) : Z :=
  load8 off m + 256 * load8 (S off) m.
Definition store16 (off : nat) (v : Z) (m : list Z) : list Z :=
  store8 (S off) (v / 256) (store8 off v m).

Definition load32 (off : nat) (m : list Z) : Z :=
  load16 off m + 65536 * load16 (S (S off)) m.
Definition store32 (off : nat) (v : Z) (m : list Z) : list Z :=
  store16 (S (S off)) (v / 65536) (store16 off v m).

(** Stores of a run of bytes (struct assignment of an [IN6_ADDR]). *)
Fixpoint store_bytes (off : nat) (bs : list Z) (m : list Z) : list Z :=
  match bs with
  | [] => m
  | b :: bs' => store_bytes (S off) bs' (store8 off b m)
  end.

(** Conversion of a 16-bit pattern to [short]. *)
Definition to_short (u : Z) : Z := (u + 32768) mod 65536 - 32768.

End Winsock.

Module ntl.
Import Winsock.

Inductive ByteOrder := HostOrder | NetworkOrder.

Definition IP_STRING_MAX_LENGTH : nat := 65.

(** An instance is the content of its only data member,
    [SOCKADDR_STORAGE saddr]. *)
Abbreviation Sockaddr := (list Z).

Definition SADDR_SIZE : nat := sizeof_SOCKADDR_STORAGE.

(** Well-formed storage: [SADDR_SIZE] bytes, each in [0, 256). *)
Definition wf (s : Sockaddr) : Prop :=
  length s = SADDR_SIZE /\ Forall (fun b => 0 <= b < 256) s.

(** *** Accessors *)

Definition ss_family (this : Sockaddr) : Z := load16 ss_family_offset this.
Definition sin_port (this : Sockaddr) : Z := load16 sin_port_offset this.
Definition sin6_port (this : Sockaddr) : Z := load16 sin6_port_offset this.

Definition family (this : Sockaddr) : Z := to_short (ss_family this).

Definition port (this : Sockaddr) : Z := ntohs (sin_port this).

Definition flowinfo (this : Sockaddr) : Z :=
  if decide (AF_INET6 = ss_family this)
  then load32 sin6_flowinfo_offset this
  else 0.

Definition scopeId (this : Sockaddr) : Z :=
  if decide (AF_INET6 = ss_family this)
  then load32 sin6_scope_id_offset this
  else 0.

(** *** Mutators that cannot fail: state transformers on [this] *)

Definition setPort (port : Z) (order : ByteOrder) (this : Sockaddr) : Sockaddr :=
  store16 sin_port_offset
    (match order with HostOrder => htons port | NetworkOrder => port end)
    this.

Definition setFlowInfo (flowinfo : Z) (this : Sockaddr) : Sockaddr :=
  if decide (AF_INET6 = ss_family this)
  then store32 sin6_flowinfo_offset flowinfo this
  else this.

Definition setScopeId (scopeid : Z) (this : Sockaddr) : Sockaddr :=
  if decide (AF_INET6 = ss_family this)
  then store32 sin6_scope_id_offset scopeid this
  else this.

(** *** Construction, assignment, comparison

    A constructor receives the raw storage of the object under
    construction as [this]; its previous content is indeterminate. *)

(** [Sockaddr(short family)]. *)
Definition Sockaddr_family (this : Sockaddr) (family : Z) : Sockaddr :=
  let this := ZeroMemory this SADDR_SIZE in
  store16 ss_family_offset family this.

(** [Sockaddr(const Sockaddr&)]. *)
Definition Sockaddr_copy (this inAddr : Sockaddr) : Sockaddr :=
  CopyMemory this inAddr SADDR_SIZE.

(** [Sockaddr(Sockaddr&&)]: the pair is the constructed object and the
    argument as the constructor leaves it. *)
Definition Sockaddr_move (this inAddr : Sockaddr) : Sockaddr * Sockaddr :=
  let this := CopyMemory this inAddr SADDR_SIZE in
  (this, inAddr).

(** [operator=(Sockaddr&&)], for an argument that is another object: the
    pair is [*this] and the argument after the assignment. *)
Definition assign_move (this inAddr : Sockaddr) : Sockaddr * Sockaddr :=
  let this := CopyMemory this inAddr SADDR_SIZE in
  let inAddr := ZeroMemory inAddr SADDR_SIZE in
  (this, inAddr).

(** [operator==]. *)
Definition equal (this inAddr : Sockaddr) : bool :=
  bool_decide (0 = memcmp this inAddr SADDR_SIZE).

(** [swap]: the two objects exchange their storage. *)
Definition swap (this inAddr : Sockaddr) : Sockaddr * Sockaddr :=
  (inAddr, this).

(** Storage of a local variable before its constructor runs.  Every
    constructor used on a local overwrites all [SADDR_SIZE] bytes, so the
    content chosen here does not show in any result
    (see [local_storage_irrelevant]). *)
Definition automatic_storage : Sockaddr := replicate SADDR_SIZE 0.

(** Conversions around the [int] length argument of [setSockaddr]. *)
Definition static_cast_int (n : Z) : Z :=
  (n + 2147483648) mod 4294967296 - 2147483648.
Definition size_t_of_int (n : Z) : Z := n mod 18446744073709551616.

(** [setSockaddr(const SOCKADDR*, int)]: [inAddr] is the memory the
    pointer designates. *)
Definition setSockaddr (inAddr : list Z) (inLength : Z) (this : Sockaddr) : Sockaddr :=
  let length :=
    if decide (size_t_of_int inLength <= Z.of_nat SADDR_SIZE)
    then size_t_of_int inLength
    else Z.of_nat SADDR_SIZE in
  let this := ZeroMemory this SADDR_SIZE in
  CopyMemory this inAddr (Z.to_nat length).

(** *** The fatal condition *)

Inductive Outcome (A : Type) : Type :=
| Returns (a : A)
| FatalCondition.
Arguments Returns {A} a.
Arguments FatalCondition {A}.

(** Modelled from the spec: [ntl::AlwaysFatalCondition] is declared in
    ntlException.hpp, which is not among the sources.  The spec calls the
    failure fatal and unrecoverable, not a returned error: the call does not
    come back, so the caller gets no value and no later statement runs. *)
Definition AlwaysFatalCondition {A : Type} : Outcome A := FatalCondition.

Definition setAddressLoopback (this : Sockaddr) : Outcome Sockaddr :=
  if decide (AF_INET = ss_family this) then
    let in4_port := sin_port this in
    let this := ZeroMemory this SADDR_SIZE in
    let this := store16 ss_family_offset AF_INET this in
    let this := store16 sin_port_offset in4_port this in
    Returns (store32 sin_addr_offset 0x0100007f this)
  else if decide (AF_INET6 = ss_family this) then
    let in6_port := sin6_port this in
    let this := ZeroMemory this SADDR_SIZE in
    let this := store16 ss_family_offset AF_INET6 this in
    let this := store16 sin6_port_offset in6_port this in
    Returns (store8 (sin6_addr_offset + 15) 1 this)
  else AlwaysFatalCondition.

Definition setAddressAny (this : Sockaddr) : Sockaddr :=
  if decide (AF_INET = ss_family this) then
    let in4_port := sin_port this in
    let this := ZeroMemory this SADDR_SIZE in
    let this := store16 ss_family_offset AF_INET this in
    store16 sin_port_offset in4_port this
  else if decide (AF_INET6 = ss_family this) then
    let in6_port := sin6_port this in
    let this := ZeroMemory this SADDR_SIZE in
    let this := store16 ss_family_offset AF_INET6 this in
    store16 sin6_port_offset in6_port this
  else this.

(** The two queries are [const]; the model returns [*this] next to the
    answer, so that "the instance is not modified" is a statement about the
    function and not a convention. *)
Definition isAddressLoopback (this : Sockaddr) : Outcome (bool * Sockaddr) :=
  let loopback := Sockaddr_copy automatic_storage this in
  match setAddressLoopback loopback with
  | Returns loopback =>
      Returns (bool_decide (0 = memcmp loopback this sizeof_SOCKADDR_STORAGE), this)
  | FatalCondition => FatalCondition
  end.

Definition isAddressAny (this : Sockaddr) : bool * Sockaddr :=
  let any_addr := Sockaddr_copy automatic_storage this in
  let any_addr := setAddressAny any_addr in
  (bool_decide (0 = memcmp any_addr this sizeof_SOCKADDR_STORAGE), this).

(** *** Dual-mode mapping *)

Definition mapDualMode4To6 (this : Sockaddr) : Sockaddr :=
  let v4MappedPrefix := IN6ADDR_V4MAPPEDPREFIX_INIT in
  let tempV6 := Sockaddr_family automatic_storage AF_INET6 in
  let a6 := sin6_addr_offset in
  let a4 := sin_addr_offset in
  let tempV6 := store_bytes a6 v4MappedPrefix tempV6 in
  let tempV6 := store8 (a6 + 12) (load8 (a4 + 0) this) tempV6 in
  let tempV6 := store8 (a6 + 13) (load8 (a4 + 1) this) tempV6 in
  let tempV6 := store8 (a6 + 14) (load8 (a4 + 2) this) tempV6 in
  let tempV6 := store8 (a6 + 15) (load8 (a4 + 3) this) tempV6 in
  let tempV6 := setPort (port this) HostOrder tempV6 in
  fst (swap this tempV6).

(** *** Setting the address from a numeric string

    [GetAddrInfoW] and [GetAddrInfoA] belong to the operating system.  The
    model takes the call as a function of the text: [Some ai_addr] when the
    call returns 0, with the [ai_addrlen] bytes of the first result, and
    [None] when it returns an error.  The two overloads of [setAddress]
    differ in the character type only. *)
Section NumericHost.
Variable GetAddrInfo : string -> option (list Z).

Definition setAddress (szAddr : string) (this : Sockaddr) : bool * Sockaddr :=
  match GetAddrInfo szAddr with
  | Some ai_addr =>
      let ai_addrlen := Z.of_nat (length ai_addr) in
      (true, setSockaddr ai_addr (static_cast_int ai_addrlen) this)
  | None => (false, this)
  end.

End NumericHost.

(** *** Rendering with the scope trimmed

    Characters are code units ([WCHAR] or [CHAR]); the two overloads run
    the same statements. *)
Definition chr_percent : Z := 37.
Definition chr_rbracket : Z := 93.
Definition chr_nul : Z := 0.

(** [std::find(address + first, address + last, c)] as an index into
    [address]: the first position in the range that holds [c], [last] when
    there is none. *)
Fixpoint find_loop (n : nat) (address : list Z) (first : nat) (c : Z) : nat :=
  match n with
  | O => first
  | S n' =>
      if decide (address !! first = Some c) then first
      else find_loop n' address (S first) c
  end.

Definition std_find (address : list Z) (first last : nat) (c : Z) : nat :=
  find_loop (last - first) address first c.

(** Accesses through a pointer into the array: outside the array they have
    no defined result. *)
Definition deref (address : list Z) (p : nat) : option Z := address !! p.

Definition assign (address : list Z) (p : nat) (c : Z) : option (list Z) :=
  if decide (p < length address)%nat then Some (<[p := c]> address) else None.

(** [while (move_ptr != end) { *scope_ptr = *move_ptr; ++scope_ptr; ++move_ptr; }]
    [None] stands for a run with no defined result: an access outside the
    array, or a loop still running when [fuel] iterations are used up. *)
Fixpoint shift_loop (fuel : nat) (address : list Z) (scope_ptr move_ptr end_ : nat)
  {struct fuel} : option (list Z) :=
  if decide (move_ptr ≠ end_) then
    match fuel with
    | O => None
    | S fuel' =>
        c ← deref address move_ptr;
        address ← assign address scope_ptr c;
        shift_loop fuel' address (S scope_ptr) (S move_ptr) end_
    end
  else Some address.

(** [while (scope_ptr != end) { *scope_ptr = L'\0'; ++scope_ptr; }] *)
Fixpoint zero_loop (fuel : nat) (address : list Z) (scope_ptr end_ : nat)
  {struct fuel} : option (list Z) :=
  if decide (scope_ptr ≠ end_) then
    match fuel with
    | O => None
    | S fuel' =>
        address ← assign address scope_ptr chr_nul;
        zero_loop fuel' address (S scope_ptr) end_
    end
  else Some address.

(** The block guarded by [(family() == AF_INET6) && trim_scope].  Both
    loops move a pointer that starts inside [address, end] towards [end],
    so [addressLength] iterations are enough fuel. *)
Definition trim_scope_block (address : list Z) (addressLength : nat) : option (list Z) :=
  let end_ := addressLength in
  let scope_ptr := std_find address 0 end_ chr_percent in
  if decide (scope_ptr ≠ end_) then
    let move_ptr := std_find address 0 end_ chr_rbracket in
    if decide (move_ptr ≠ end_) then
      shift_loop addressLength address scope_ptr move_ptr end_
    else
      zero_loop addressLength address scope_ptr end_
  else Some address.

(** The text a character array holds: the characters before the first
    terminator. *)
Fixpoint c_str (a : list Z) : list Z :=
  match a with
  | [] => []
  | c :: a' => if decide (c = chr_nul) then [] else c :: c_str a'
  end.

(** [WSAAddressToStringW] and [WSAAddressToStringA] belong to the operating
    system.  The model takes the call as a function of the address bytes and
    of the capacity passed in: [Some rendered] when the call returns 0, where
    [rendered] is what it wrote at the start of the array and its length is
    the value left in [addressLength]; [None] when it fails. *)
Section Render.
Variable WSAAddressToString : Sockaddr -> nat -> option (list Z).

(** [bool writeCompleteAddress(WCHAR (&address)[IP_STRING_MAX_LENGTH], bool)]:
    the result is the returned flag with the array. *)
Definition writeCompleteAddress (this : Sockaddr) (address : list Z) (trim_scope : bool)
  : option (bool * list Z) :=
  let address := ZeroMemory address IP_STRING_MAX_LENGTH in
  let addressLength := IP_STRING_MAX_LENGTH in
  match WSAAddressToString this addressLength with
  | Some rendered =>
      let address := CopyMemory address rendered (length rendered) in
      let addressLength := length rendered in
      if bool_decide (family this = AF_INET6) && trim_scope then
        address ← trim_scope_block address addressLength;
        Some (true, address)
      else Some (true, address)
  | None => Some (false, address)
  end.

(** [std::wstring writeCompleteAddress(bool)]: the local array starts with
    indeterminate content, which the call above zeroes as its first step. *)
Definition writeCompleteAddress_wstring (this : Sockaddr) (trim_scope : bool)
  : option (list Z) :=
  let return_string := replicate IP_STRING_MAX_LENGTH 0 in
  '(_, return_string) ← writeCompleteAddress this return_string trim_scope;
  let return_string := <[(IP_STRING_MAX_LENGTH - 1)%nat := chr_nul]> return_string in
  Some (c_str return_string).

End Render.

#[global] Instance wf_dec (s : Sockaddr) : Decision (wf s).
Proof. unfold wf. apply _. Defined.

(** Instances used as concrete inputs: an unspecified address, and the
    IPv4 endpoint 1.2.3.4:80 built with the class's own operations. *)
Definition unspecified : Sockaddr := Sockaddr_family automatic_storage AF_UNSPEC.

Definition endpoint_1_2_3_4_80 : Sockaddr :=
  setPort 80 HostOrder
    (store32 sin_addr_offset 0x04030201 (Sockaddr_family automatic_storage AF_INET)).

(** The IPv4 endpoint 127.0.0.1:8080 and the IPv6 endpoint
    [fe80::1%3]:443. *)
Definition endpoint_127_0_0_1_8080 : Sockaddr :=
  setPort 8080 HostOrder
    (store32 sin_addr_offset 0x0100007f (Sockaddr_family automatic_storage AF_INET)).

Definition endpoint_fe80_1_scope3_443 : Sockaddr :=
  setScopeId 3
    (setPort 443 HostOrder
       (store_bytes sin6_addr_offset
          [0xfe; 0x80; 0; 0; 0; 0; 0; 0; 0; 0; 0; 0; 0; 0; 0; 1]
          (Sockaddr_family automatic_storage AF_INET6))).

(** The code units of a text. *)
Definition code_units (text : string) : list Z :=
  (λ c, Z.of_nat (Ascii.nat_of_ascii c)) <$> String.list_ascii_of_string text.

(** A numeric-host lookup that knows the literal 127.0.0.1: the answer is
    the [SOCKADDR_IN] of that address, whose port is 0 because the call is
    made without a service name. *)
Definition lookup_127_0_0_1 (text : string) : option (list Z) :=
  if decide (text = "127.0.0.1"%string)
  then Some ([2; 0; 0; 0; 127; 0; 0; 1] ++ replicate 8 0)
  else None.

(** A rendering call that writes the text of [fe80::1%3]:443 and its
    terminator, for any address. *)
Definition render_fe80_1_scope3_443 (_ : Sockaddr) (_ : nat) : option (list Z) :=
  Some (code_units "[fe80::1%3]:443" ++ [chr_nul]).


(** *** The remaining constructors and [setSockaddr] overloads *)

(** [Sockaddr(const SOCKADDR*, const int)]. *)
Definition Sockaddr_ptr_int (this : Sockaddr) (inAddr : list Z) (inLength : Z) : Sockaddr :=
  let length :=
    if decide (size_t_of_int inLength <= Z.of_nat SADDR_SIZE)
    then size_t_of_int inLength
    else Z.of_nat SADDR_SIZE in
  let this := ZeroMemory this SADDR_SIZE in
  CopyMemory this inAddr (Z.to_nat length).

(** [Sockaddr(const SOCKADDR*, const size_t)]. *)
Definition Sockaddr_ptr_size_t (this : Sockaddr) (inAddr : list Z) (inLength : nat) : Sockaddr :=
  let length := if decide (inLength ≤ SADDR_SIZE)%nat then inLength else SADDR_SIZE in
  let this := ZeroMemory this SADDR_SIZE in
  CopyMemory this inAddr length.

(** [Sockaddr(const SOCKADDR_IN* inAddr)] and [Sockaddr(const SOCKADDR_IN6* inAddr)]. *)
Definition Sockaddr_in (this : Sockaddr) (inAddr : list Z) : Sockaddr :=
  let this := ZeroMemory this SADDR_SIZE in
  CopyMemory this inAddr sizeof_SOCKADDR_IN.

Definition Sockaddr_in6 (this : Sockaddr) (inAddr : list Z) : Sockaddr :=
  let this := ZeroMemory this SADDR_SIZE in
  CopyMemory this inAddr sizeof_SOCKADDR_IN6.

(** [Sockaddr(const SOCKADDR_INET* inAddr)]: [si_family] is the 16-bit field at
    offset 0 of the union. *)
Definition si_family (inAddr : list Z) : Z := load16 ss_family_offset inAddr.

Definition Sockaddr_inet (this : Sockaddr) (inAddr : list Z) : Sockaddr :=
  let this := ZeroMemory this SADDR_SIZE in
  if decide (AF_INET = si_family inAddr)
  then CopyMemory this inAddr sizeof_SOCKADDR_IN
  else CopyMemory this inAddr sizeof_SOCKADDR_IN6.

(** [Sockaddr(const SOCKADDR_STORAGE* inAddr)]. *)
Definition Sockaddr_storage (this : Sockaddr) (inAddr : list Z) : Sockaddr :=
  CopyMemory this inAddr SADDR_SIZE.

(** [SOCKET_ADDRESS]: a pointer, here the memory it designates, and an
    [INT] length. *)
Record SOCKET_ADDRESS : Type := {
  lpSockaddr : list Z;
  iSockaddrLength : Z
}.

(** [Sockaddr(const SOCKET_ADDRESS* inAddr)]. *)
Definition Sockaddr_socket_address (this : Sockaddr) (inAddr : SOCKET_ADDRESS) : Sockaddr :=
  let length :=
    if decide (size_t_of_int (iSockaddrLength inAddr) <= Z.of_nat SADDR_SIZE)
    then size_t_of_int (iSockaddrLength inAddr)
    else Z.of_nat SADDR_SIZE in
  let this := ZeroMemory this SADDR_SIZE in
  CopyMemory this (lpSockaddr inAddr) (Z.to_nat length).

(** [operator=(const Sockaddr&)], copy and swap: the pair is [*this] and
    the argument after the assignment. *)
Definition assign_copy (this inAddr : Sockaddr) : Sockaddr * Sockaddr :=
  let temp := Sockaddr_copy automatic_storage inAddr in
  let '(this, temp) := swap this temp in
  (this, inAddr).

(** [operator!=]. *)
Definition not_equal (this inAddr : Sockaddr) : bool := negb (equal this inAddr).

(** [reset(short family)]. *)
Definition reset (family : Z) (this : Sockaddr) : Sockaddr :=
  let this := ZeroMemory this SADDR_SIZE in
  store16 ss_family_offset family this.

(** [setSockaddr(const SOCKADDR_IN* inAddr)], [setSockaddr(const SOCKADDR_IN6* inAddr)],
    [setSockaddr(const SOCKADDR_INET* inAddr)], [setSockaddr(const SOCKADDR_STORAGE* inAddr)]
    and [setSockaddr(const SOCKET_ADDRESS* inAddr)]. *)
Definition setSockaddr_in (inAddr : list Z) (this : Sockaddr) : Sockaddr :=
  let this := ZeroMemory this SADDR_SIZE in
  CopyMemory this inAddr sizeof_SOCKADDR_IN.

Definition setSockaddr_in6 (inAddr : list Z) (this : Sockaddr) : Sockaddr :=
  let this := ZeroMemory this SADDR_SIZE in
  CopyMemory this inAddr sizeof_SOCKADDR_IN6.

Definition setSockaddr_inet (inAddr : list Z) (this : Sockaddr) : Sockaddr :=
  let this := ZeroMemory this SADDR_SIZE in
  if decide (AF_INET = si_family inAddr)
  then CopyMemory this inAddr sizeof_SOCKADDR_IN
  else CopyMemory this inAddr sizeof_SOCKADDR_IN6.

Definition setSockaddr_storage (inAddr : list Z) (this : Sockaddr) : Sockaddr :=
  CopyMemory this inAddr SADDR_SIZE.

Definition setSockaddr_socket_address (inAddr : SOCKET_ADDRESS) (this : Sockaddr) : Sockaddr :=
  let length :=
    if decide (size_t_of_int (iSockaddrLength inAddr) <= Z.of_nat SADDR_SIZE)
    then size_t_of_int (iSockaddrLength inAddr)
    else Z.of_nat SADDR_SIZE in
  let this := ZeroMemory this SADDR_SIZE in
  CopyMemory this (lpSockaddr inAddr) (Z.to_nat length).

(** *** Binary addresses

    [in_addr()] and [in6_addr()] return pointers into the storage; the model
    gives the [IN_ADDR] and [IN6_ADDR] objects they designate. *)
Definition sizeof_IN_ADDR : nat := 4.
Definition sizeof_IN6_ADDR : nat := 16.

Definition in_addr (this : Sockaddr) : list Z :=
  take sizeof_IN_ADDR (drop sin_addr_offset this).

Definition in6_addr (this : Sockaddr) : list Z :=
  take sizeof_IN6_ADDR (drop sin6_addr_offset this).

(** [setAddress(const IN_ADDR* inAddr)] and [setAddress(const IN6_ADDR* inAddr)]: the
    structure assignment copies the bytes of one address object. *)
Definition setAddress_in_addr (inAddr : list Z) (this : Sockaddr) : Sockaddr :=
  let this := store16 ss_family_offset AF_INET this in
  store_bytes sin_addr_offset (take sizeof_IN_ADDR inAddr) this.

Definition setAddress_in6_addr (inAddr : list Z) (this : Sockaddr) : Sockaddr :=
  let this := store16 ss_family_offset AF_INET6 this in
  store_bytes sin6_addr_offset (take sizeof_IN6_ADDR inAddr) this.

(** [length()] and the storage seen through [sockaddr()]. *)
Definition length_ (this : Sockaddr) : Z := static_cast_int (Z.of_nat SADDR_SIZE).

Definition sockaddr (this : Sockaddr) : list Z := this.

(** *** Rendering the address alone

    [InetNtopW] and [InetNtopA] belong to the operating system.  The model
    takes the call as a function of the family, of the memory that starts at
    the address pointer and runs to the end of the storage, and of the
    capacity: [Some text] when the call returns the buffer, with the
    characters it wrote, [None] when it returns a null pointer. *)
Section Presentation.
Variable InetNtop : Z -> list Z -> nat -> option (list Z).

Definition writeAddress (this : Sockaddr) (address : list Z) : bool * list Z :=
  let address := ZeroMemory address IP_STRING_MAX_LENGTH in
  let pAddr :=
    if decide (AF_INET = ss_family this)
    then drop sin_addr_offset this
    else drop sin6_addr_offset this in
  match InetNtop (ss_family this) pAddr IP_STRING_MAX_LENGTH with
  | Some text => (true, CopyMemory address text (length text))
  | None => (false, address)
  end.

(** [std::wstring writeAddress()]. *)
Definition writeAddress_wstring (this : Sockaddr) : list Z :=
  let return_string := replicate IP_STRING_MAX_LENGTH 0 in
  let '(_, return_string) := writeAddress this return_string in
  let return_string := <[(IP_STRING_MAX_LENGTH - 1)%nat := chr_nul]> return_string in
  c_str return_string.

End Presentation.

(** *** Name resolution

    [ResolveName] calls [GetAddrInfoW] without hints.  The model takes the
    call as a function of the name: [Some results] when it returns 0, with
    the [ai_addr] memory ([ai_addrlen] bytes) of each entry of the result
    list in order, [None] when it fails; [WSAGetLastError] is the code read
    after a failure. *)
Record Exception : Type := {
  why : Z;
  what : string;
  where_ : string
}.

Section Resolve.
Variable GetAddrInfoW : string -> option (list (list Z)).
Variable WSAGetLastError : Z.

Definition ResolveName (_name : string) : Exception + list Sockaddr :=
  match GetAddrInfoW _name with
  | Some addr_result =>
      inr ((λ ai_addr,
              Sockaddr_ptr_int automatic_storage ai_addr
                (static_cast_int (Z.of_nat (length ai_addr)))) <$> addr_result)
  | None =>
      inl {| why := WSAGetLastError;
             what := "GetAddrInfoW";
             where_ := "ntl::Sockaddr::ResolveName" |}
  end.

End Resolve.

(** An IPv6 instance with flow information and scope id set, and a
    rendering call for a text without scope. *)
Definition endpoint_fe80_1_flow7_scope3_443 : Sockaddr :=
  setFlowInfo 7 endpoint_fe80_1_scope3_443.

Definition render_ipv4_text (_ : Sockaddr) (_ : nat) : option (list Z) :=
  Some (code_units "1.2.3.4:80" ++ [chr_nul]).

End ntl.

(** * Properties *)

Import Winsock ntl.

(** ** Memory primitives *)

Section Memory.
Implicit Types (m dst src : list Z) (off i : nat) (v : Z).

Lemma length_store8 off v m : length (store8 off v m) = length m.
Proof. apply length_insert. Qed.

Lemma length_store16 off v m : length (store16 off v m) = length m.
Proof. unfold store16. by rewrite !length_store8. Qed.

Lemma length_store32 off v m : length (store32 off v m) = length m.
Proof. unfold store32. by rewrite !length_store16. Qed.

Lemma lookup_store8_ne off i v m : off ≠ i → store8 off v m !! i = m !! i.
Proof. apply list_lookup_insert_ne. Qed.

Lemma lookup_store16_ne off i v m :
  off ≠ i → S off ≠ i → store16 off v m !! i = m !! i.
Proof. intros. unfold store16. by rewrite !lookup_store8_ne. Qed.

Lemma lookup_store32_ne off i v m :
  (i < off ∨ off + 4 ≤ i)%nat → store32 off v m !! i = m !! i.
Proof. intros. unfold store32. rewrite !lookup_store16_ne; [done | lia..]. Qed.

Lemma load8_store8_eq off v m :
  (off < length m)%nat → load8 off (store8 off v m) = v mod 256.
Proof. intros. unfold load8, store8. by rewrite list_lookup_total_insert_eq. Qed.

Lemma load8_store8_ne off i v m : off ≠ i → load8 i (store8 off v m) = load8 i m.
Proof. intros. unfold load8, store8. by rewrite list_lookup_total_insert_ne. Qed.

Lemma load16_store16_eq off v m :
  (S off < length m)%nat → 0 <= v < 65536 → load16 off (store16 off v m) = v.
Proof.
  intros Hoff Hv. unfold load16, store16.
  rewrite load8_store8_ne by lia.
  rewrite !load8_store8_eq by (rewrite ?length_store8; lia).
  rewrite (Z.mod_small (v / 256)) by (split; [apply Z.div_pos | apply Z.div_lt_upper_bound]; lia).
  pose proof (Z.div_mod v 256). lia.
Qed.

Lemma load16_store16_ne off off' v m :
  (S off < off' ∨ S off' < off)%nat → load16 off' (store16 off v m) = load16 off' m.
Proof.
  intros. unfold load16, store16. by rewrite !load8_store8_ne by lia.
Qed.

Lemma ZeroMemory_all m n : length m = n → ZeroMemory m n = replicate n 0.
Proof.
  intros <-. unfold ZeroMemory. rewrite drop_ge by done. apply app_nil_r.
Qed.

Lemma CopyMemory_all dst src n :
  length dst = n → length src = n → CopyMemory dst src n = src.
Proof.
  intros <- Hsrc. unfold CopyMemory.
  rewrite take_ge by lia. rewrite drop_ge by done. apply app_nil_r.
Qed.

Lemma memcmp_refl m n : memcmp m m n = 0.
Proof.
  revert m. induction n as [|n IH]; intros [|x m]; simpl; try done.
  by rewrite Z.ltb_irrefl.
Qed.

Lemma htons_range v : 0 <= htons v < 65536.
Proof.
  unfold htons.
  pose proof (Z.mod_pos_bound v 256). pose proof (Z.mod_pos_bound (v / 256) 256). lia.
Qed.

Lemma ntohs_htons v : 0 <= v < 65536 → ntohs (htons v) = v.
Proof.
  intros Hv. unfold ntohs, htons.
  assert (Hq : 0 <= v / 256 < 256)
    by (split; [apply Z.div_pos | apply Z.div_lt_upper_bound]; lia).
  rewrite (Z.mod_small (v / 256)) by done.
  pose proof (Z.mod_pos_bound v 256 eq_refl) as Hr.
  replace ((v mod 256 * 256 + v / 256) mod 256) with (v / 256)
    by (rewrite Z.add_comm, Z.mod_add, Z.mod_small; lia).
  replace ((v mod 256 * 256 + v / 256) / 256) with (v mod 256)
    by (rewrite Z.add_comm, Z.div_add, (Z.div_small (v / 256)); lia).
  rewrite (Z.mod_small (v mod 256)) by done.
  pose proof (Z.div_mod v 256). lia.
Qed.

End Memory.

(** ** Well-formed storage *)

Lemma wf_length (s : Sockaddr) : wf s → length s = SADDR_SIZE.
Proof. by intros [? _]. Qed.

Lemma wf_load8 (s : Sockaddr) (i : nat) :
  wf s → (i < SADDR_SIZE)%nat → 0 <= load8 i s < 256.
Proof.
  intros [Hlen Hall] Hi. unfold load8.
  destruct (lookup_lt_is_Some_2 s i) as [b Hb]; [lia |].
  rewrite (list_lookup_total_correct _ _ _ Hb).
  by apply (Forall_lookup_1 _ _ _ _ Hall Hb).
Qed.

Lemma wf_load16 (s : Sockaddr) (i : nat) :
  wf s → (S i < SADDR_SIZE)%nat → 0 <= load16 i s < 65536.
Proof.
  intros Hwf Hi. unfold load16.
  pose proof (wf_load8 s i Hwf). pose proof (wf_load8 s (S i) Hwf). lia.
Qed.

Lemma wf_family_iff (s : Sockaddr) (af : Z) :
  wf s → 0 <= af < 32768 → family s = af ↔ af = ss_family s.
Proof.
  intros Hwf Haf. unfold family, to_short.
  assert (0 <= ss_family s < 65536) as Hr by (apply wf_load16; [done | vm_compute; lia]).
  destruct (decide (ss_family s < 32768)).
  - rewrite Z.mod_small by lia. lia.
  - replace ((ss_family s + 32768) mod 65536) with (ss_family s - 32768); [lia |].
    apply (Z.mod_unique_pos _ _ 1); lia.
Qed.

Lemma wf_unspecified : wf unspecified.
Proof. apply (bool_decide_unpack _). vm_compute. exact I. Qed.

Lemma wf_endpoint_1_2_3_4_80 : wf endpoint_1_2_3_4_80.
Proof. apply (bool_decide_unpack _). vm_compute. exact I. Qed.

(** ** The port field *)

Lemma setPort_unfold (v : Z) (order : ByteOrder) (s : Sockaddr) :
  setPort v order s =
  store16 sin_port_offset (match order with HostOrder => htons v | NetworkOrder => v end) s.
Proof. reflexivity. Qed.

Lemma sin_port_setPort (v : Z) (order : ByteOrder) (s : Sockaddr) :
  wf s → 0 <= v < 65536 →
  sin_port (setPort v order s) =
  match order with HostOrder => htons v | NetworkOrder => v end.
Proof.
  intros Hwf Hv. unfold sin_port. rewrite setPort_unfold.
  apply load16_store16_eq.
  - rewrite (wf_length s Hwf). vm_compute. lia.
  - destruct order; [apply htons_range | done].
Qed.

(** C7. For every instance, whatever its family, and every 16-bit value
    [v]: [setPort v HostOrder] stores [htons v] in the port field,
    [setPort v NetworkOrder] stores [v] itself, [port] is [ntohs] of the
    field at the offset of [sin_port], and [port] after
    [setPort v HostOrder] is [v]. *)
Theorem setPort_port_roundtrip (s : Sockaddr) (v : Z) :
  wf s → 0 <= v < 65536 →
  sin_port (setPort v HostOrder s) = htons v ∧
  sin_port (setPort v NetworkOrder s) = v ∧
  port s = ntohs (load16 sin_port_offset s) ∧
  port (setPort v HostOrder s) = v.
Proof.
  intros Hwf Hv. repeat split.
  - by rewrite sin_port_setPort.
  - by rewrite sin_port_setPort.
  - unfold port. by rewrite sin_port_setPort, ntohs_htons.
Qed.

Lemma setPort_port_roundtrip_witness :
  sin_port (setPort 8080 HostOrder unspecified) = htons 8080 ∧
  sin_port (setPort 8080 NetworkOrder unspecified) = 8080 ∧
  port unspecified = ntohs (load16 sin_port_offset unspecified) ∧
  port (setPort 8080 HostOrder unspecified) = 8080.
Proof.
  apply (setPort_port_roundtrip unspecified 8080); [exact wf_unspecified | lia].
Defined.

(** C10. [setPort] has no family guard.  For every instance, also one of
    unspecified family, it stores the low and the high byte of the value
    at offsets 2 and 3 and leaves every other byte, so also the family, as
    it was; the buffer changes whenever the stored value differs from the
    port field it replaces. *)
Theorem setPort_frame (s : Sockaddr) (v : Z) (order : ByteOrder) :
  wf s → 0 <= v < 65536 →
  let w := match order with HostOrder => htons v | NetworkOrder => v end in
  setPort v order s !! 2%nat = Some (w mod 256) ∧
  setPort v order s !! 3%nat = Some (w / 256) ∧
  (∀ i : nat, i ≠ 2%nat → i ≠ 3%nat → setPort v order s !! i = s !! i) ∧
  length (setPort v order s) = length s ∧
  family (setPort v order s) = family s ∧
  (sin_port s ≠ w → setPort v order s ≠ s).
Proof.
  intros Hwf Hv w.
  assert (Hlen : length s = 128%nat) by exact (wf_length s Hwf).
  assert (Hw : 0 <= w < 65536) by (destruct order; [apply htons_range | done]).
  assert (Hq : 0 <= w / 256 < 256)
    by (split; [apply Z.div_pos | apply Z.div_lt_upper_bound]; lia).
  rewrite setPort_unfold. fold w. unfold store16, store8, sin_port_offset.
  split_and!.
  - rewrite list_lookup_insert_ne by lia.
    apply list_lookup_insert_eq. lia.
  - rewrite (Z.mod_small (w / 256)) by done.
    apply list_lookup_insert_eq. rewrite length_insert. lia.
  - intros i H2 H3. by rewrite !list_lookup_insert_ne by lia.
  - by rewrite !length_insert.
  - unfold family, ss_family, load16, load8, ss_family_offset.
    by rewrite !list_lookup_total_insert_ne by lia.
  - intros Hne Heq. apply Hne. unfold sin_port. rewrite <- Heq at 1.
    apply (load16_store16_eq 2 w s); [lia | done].
Qed.

Lemma setPort_frame_witness :
  setPort 80 NetworkOrder unspecified !! 2%nat = Some 80 ∧
  setPort 80 NetworkOrder unspecified !! 3%nat = Some 0 ∧
  family (setPort 80 NetworkOrder unspecified) = AF_UNSPEC ∧
  setPort 80 NetworkOrder unspecified ≠ unspecified.
Proof.
  destruct (setPort_frame unspecified 80 NetworkOrder wf_unspecified)
    as (Hlow & Hhigh & _ & _ & Hfamily & Hchanged); [lia |].
  split_and!; [exact Hlow | exact Hhigh | exact Hfamily |].
  apply Hchanged. vm_compute. discriminate.
Defined.

(** ** Flow information and scope id *)

(** C6. For every instance whose family is not IPv6, [flowinfo] and
    [scopeId] return 0, and [setFlowInfo] and [setScopeId] leave the whole
    buffer as it was, for every value. *)
Theorem family_isolation (s : Sockaddr) :
  wf s → family s ≠ AF_INET6 →
  flowinfo s = 0 ∧ scopeId s = 0 ∧
  (∀ v : Z, setFlowInfo v s = s) ∧ (∀ v : Z, setScopeId v s = s).
Proof.
  intros Hwf Hfam.
  assert (Hss : AF_INET6 ≠ ss_family s).
  { intros Heq. apply Hfam. apply wf_family_iff; [done | vm_compute; split; congruence | done]. }
  unfold flowinfo, scopeId, setFlowInfo, setScopeId.
  destruct (decide (AF_INET6 = ss_family s)) as [Heq | _]; [by destruct Hss |].
  done.
Qed.

Lemma family_isolation_witness :
  flowinfo endpoint_1_2_3_4_80 = 0 ∧ scopeId endpoint_1_2_3_4_80 = 0 ∧
  (∀ v : Z, setFlowInfo v endpoint_1_2_3_4_80 = endpoint_1_2_3_4_80) ∧
  (∀ v : Z, setScopeId v endpoint_1_2_3_4_80 = endpoint_1_2_3_4_80).
Proof.
  apply (family_isolation endpoint_1_2_3_4_80 wf_endpoint_1_2_3_4_80).
  vm_compute. congruence.
Defined.

(** ** Loopback and wildcard addresses *)

Lemma store8_byte (off : nat) (b : Z) (m : list Z) :
  0 <= b < 256 → store8 off b m = <[off := b]> m.
Proof. intros. unfold store8. by rewrite Z.mod_small. Qed.

Lemma store16_load16 (off : nat) (s : Sockaddr) (m : list Z) :
  wf s → (S off < SADDR_SIZE)%nat →
  store16 off (load16 off s) m = <[S off := load8 (S off) s]> (<[off := load8 off s]> m).
Proof.
  intros Hwf Hoff. unfold store16, load16, store8.
  pose proof (wf_load8 s off Hwf ltac:(lia)) as H0.
  pose proof (wf_load8 s (S off) Hwf Hoff) as H1.
  generalize dependent (load8 off s). generalize dependent (load8 (S off) s).
  intros b1 Hb1 b0 Hb0.
  replace ((b0 + 256 * b1) mod 256) with b0 by (Z.div_mod_to_equations; lia).
  replace ((b0 + 256 * b1) / 256) with b1 by (Z.div_mod_to_equations; lia).
  by rewrite (Z.mod_small b1).
Qed.

Lemma htons_ntohs (v : Z) : 0 <= v < 65536 → htons (ntohs v) = v.
Proof. apply ntohs_htons. Qed.

Lemma family_cases (s : Sockaddr) :
  wf s →
  (family s = AF_INET ↔ AF_INET = ss_family s) ∧
  (family s = AF_INET6 ↔ AF_INET6 = ss_family s).
Proof.
  intros Hwf. split; apply wf_family_iff; try done; vm_compute; split; congruence.
Qed.

Lemma setAddressLoopback_inet (s : Sockaddr) :
  wf s → AF_INET = ss_family s →
  setAddressLoopback s =
    Returns ([2; 0; load8 2 s; load8 3 s; 127; 0; 0; 1] ++ replicate 120 0).
Proof.
  intros Hwf Hf. unfold setAddressLoopback.
  destruct (decide (AF_INET = ss_family s)); [| done].
  rewrite ZeroMemory_all by (by apply wf_length).
  unfold sin_port, sin_port_offset.
  rewrite store16_load16 by (try done; vm_compute; lia).
  generalize (load8 2 s) (load8 3 s). intros p0 p1. reflexivity.
Qed.

Lemma setAddressLoopback_inet6 (s : Sockaddr) :
  wf s → AF_INET6 = ss_family s →
  setAddressLoopback s =
    Returns ([23; 0; load8 2 s; load8 3 s; 0; 0; 0; 0]
               ++ (replicate 15 0 ++ [1]) ++ replicate 104 0).
Proof.
  intros Hwf Hf. unfold setAddressLoopback.
  destruct (decide (AF_INET = ss_family s)) as [Hf4 | _];
    [rewrite <- Hf4 in Hf; discriminate |].
  destruct (decide (AF_INET6 = ss_family s)); [| done].
  rewrite ZeroMemory_all by (by apply wf_length).
  unfold sin6_port, sin6_port_offset.
  rewrite store16_load16 by (try done; vm_compute; lia).
  generalize (load8 2 s) (load8 3 s). intros p0 p1. reflexivity.
Qed.

Lemma setAddressLoopback_other (s : Sockaddr) :
  AF_INET ≠ ss_family s → AF_INET6 ≠ ss_family s →
  setAddressLoopback s = FatalCondition.
Proof.
  intros N4 N6. unfold setAddressLoopback.
  destruct (decide (AF_INET = ss_family s)); [done |].
  destruct (decide (AF_INET6 = ss_family s)); done.
Qed.

(** C2. [setAddressLoopback] rewrites the buffer to the loopback address of
    the current family: for IPv4 the family, the two port bytes as they
    were, 127.0.0.1 and zeros; for IPv6 the family, the two port bytes as
    they were, a zero flow field, ::1 and zeros.  The port is the one the
    instance had.  The call ends in the fatal condition exactly when the
    family is neither IPv4 nor IPv6. *)
Theorem setAddressLoopback_spec (s : Sockaddr) :
  wf s →
  (family s = AF_INET →
     setAddressLoopback s =
       Returns ([2; 0; load8 2 s; load8 3 s; 127; 0; 0; 1] ++ replicate 120 0)) ∧
  (family s = AF_INET6 →
     setAddressLoopback s =
       Returns ([23; 0; load8 2 s; load8 3 s; 0; 0; 0; 0]
                  ++ (replicate 15 0 ++ [1]) ++ replicate 104 0)) ∧
  (∀ s' : Sockaddr, setAddressLoopback s = Returns s' →
     port s' = port s ∧ family s' = family s ∧ length s' = SADDR_SIZE) ∧
  (setAddressLoopback s = FatalCondition ↔
     family s ≠ AF_INET ∧ family s ≠ AF_INET6).
Proof.
  intros Hwf. destruct (family_cases s Hwf) as [H4 H6].
  split_and!.
  - intros Hf. apply setAddressLoopback_inet; [done | by apply H4].
  - intros Hf. apply setAddressLoopback_inet6; [done | by apply H6].
  - intros s' Hs'.
    destruct (decide (AF_INET = ss_family s)) as [Hf4 | N4];
      [| destruct (decide (AF_INET6 = ss_family s)) as [Hf6 | N6]].
    + rewrite (setAddressLoopback_inet s Hwf Hf4) in Hs'. injection Hs' as <-.
      unfold port, sin_port, family. rewrite <- Hf4. done.
    + rewrite (setAddressLoopback_inet6 s Hwf Hf6) in Hs'. injection Hs' as <-.
      unfold port, sin_port, family. rewrite <- Hf6. done.
    + by rewrite (setAddressLoopback_other s N4 N6) in Hs'.
  - split.
    + intros Hfatal. split; intros Hf.
      * apply H4 in Hf. by rewrite (setAddressLoopback_inet s Hwf Hf) in Hfatal.
      * apply H6 in Hf. by rewrite (setAddressLoopback_inet6 s Hwf Hf) in Hfatal.
    + intros [N4 N6].
      apply setAddressLoopback_other; intros Hf; [apply N4, H4 | apply N6, H6]; done.
Qed.

Lemma setAddressLoopback_spec_witness :
  setAddressLoopback endpoint_1_2_3_4_80 =
    Returns ([2; 0; 0; 80; 127; 0; 0; 1] ++ replicate 120 0).
Proof.
  apply (setAddressLoopback_spec endpoint_1_2_3_4_80 wf_endpoint_1_2_3_4_80).
  reflexivity.
Defined.

Lemma local_storage_irrelevant (storage s : Sockaddr) (af : Z) :
  length storage = SADDR_SIZE → wf s →
  Sockaddr_copy storage s = s ∧
  Sockaddr_family storage af = Sockaddr_family automatic_storage af.
Proof.
  intros Hst Hwf. split.
  - apply CopyMemory_all; [done | by apply wf_length].
  - unfold Sockaddr_family. by rewrite !ZeroMemory_all.
Qed.

Lemma local_copy (s : Sockaddr) : wf s → Sockaddr_copy automatic_storage s = s.
Proof.
  intros Hwf.
  by destruct (local_storage_irrelevant automatic_storage s 0 eq_refl Hwf) as [H _].
Qed.

(** C8. For every instance whose family is neither IPv4 nor IPv6,
    [isAddressAny] answers true (and leaves the instance as it was):
    [setAddressAny] does nothing to the scratch copy, which then compares
    equal to the original. *)
Theorem isAddressAny_other_family (s : Sockaddr) :
  wf s → family s ≠ AF_INET → family s ≠ AF_INET6 →
  setAddressAny (Sockaddr_copy automatic_storage s) = s ∧
  isAddressAny s = (true, s).
Proof.
  intros Hwf N4 N6. destruct (family_cases s Hwf) as [H4 H6].
  assert (Hany : setAddressAny (Sockaddr_copy automatic_storage s) = s).
  { rewrite local_copy by done. unfold setAddressAny.
    destruct (decide (AF_INET = ss_family s)) as [Hf | _];
      [exfalso; apply N4, H4, Hf |].
    destruct (decide (AF_INET6 = ss_family s)) as [Hf | _];
      [exfalso; apply N6, H6, Hf |].
    done. }
  split; [done |].
  unfold isAddressAny. rewrite Hany, memcmp_refl. done.
Qed.

Lemma isAddressAny_other_family_witness : isAddressAny unspecified = (true, unspecified).
Proof.
  apply (isAddressAny_other_family unspecified wf_unspecified);
    vm_compute; congruence.
Defined.

(** C9. On an instance whose family is neither IPv4 nor IPv6,
    [isAddressLoopback] ends in the fatal condition of
    [setAddressLoopback], which it runs on a scratch copy.  When the family
    is IPv4 or IPv6 the call returns an answer and the instance is as it
    was. *)
Theorem isAddressLoopback_fatal (s : Sockaddr) :
  wf s →
  (family s ≠ AF_INET → family s ≠ AF_INET6 →
     setAddressLoopback (Sockaddr_copy automatic_storage s) = FatalCondition ∧
     isAddressLoopback s = FatalCondition) ∧
  (family s = AF_INET ∨ family s = AF_INET6 →
     isAddressLoopback s ≠ FatalCondition ∧
     ∃ b : bool, isAddressLoopback s = Returns (b, s)).
Proof.
  intros Hwf. destruct (family_cases s Hwf) as [H4 H6].
  unfold isAddressLoopback. rewrite local_copy by done. split.
  - intros N4 N6.
    rewrite setAddressLoopback_other; [done | |]; intros Hf;
      [apply N4, H4 | apply N6, H6]; done.
  - intros [Hf | Hf].
    + rewrite setAddressLoopback_inet by (done || by apply H4).
      split; [done | by eexists].
    + rewrite setAddressLoopback_inet6 by (done || by apply H6).
      split; [done | by eexists].
Qed.

Lemma isAddressLoopback_fatal_witness :
  isAddressLoopback unspecified = FatalCondition ∧
  ∃ b : bool, isAddressLoopback endpoint_1_2_3_4_80 = Returns (b, endpoint_1_2_3_4_80).
Proof.
  split.
  - apply (isAddressLoopback_fatal unspecified wf_unspecified);
      vm_compute; congruence.
  - apply (isAddressLoopback_fatal endpoint_1_2_3_4_80 wf_endpoint_1_2_3_4_80).
    left. reflexivity.
Defined.

(** ** Dual-mode mapping *)

(** C4. For every instance holding an IPv4 endpoint, [mapDualMode4To6]
    leaves an IPv6-family buffer: family [AF_INET6], the two port bytes as
    they were, a zero flow field, the address made of ten zero bytes, two
    0xff bytes and the four IPv4 address bytes in their stored order, a zero
    scope id and zero padding.  Hence the port is the original port. *)
Theorem mapDualMode4To6_spec (s : Sockaddr) :
  wf s → family s = AF_INET →
  mapDualMode4To6 s =
    [23; 0; load8 2 s; load8 3 s; 0; 0; 0; 0]
      ++ ([0; 0; 0; 0; 0; 0; 0; 0; 0; 0; 255; 255]
            ++ [load8 4 s; load8 5 s; load8 6 s; load8 7 s])
      ++ replicate 104 0 ∧
  family (mapDualMode4To6 s) = AF_INET6 ∧
  port (mapDualMode4To6 s) = port s ∧
  take 16 (drop sin6_addr_offset (mapDualMode4To6 s)) =
    take 12 IN6ADDR_V4MAPPEDPREFIX_INIT ++ take 4 (drop sin_addr_offset s).
Proof.
  intros Hwf _.
  assert (Hlen : length s = 128%nat) by exact (wf_length s Hwf).
  assert (Hb : ∀ i : nat, (i < 128)%nat → 0 <= load8 i s < 256)
    by (intros i Hi; by apply wf_load8).
  assert (E : mapDualMode4To6 s =
    [23; 0; load8 2 s; load8 3 s; 0; 0; 0; 0]
      ++ ([0; 0; 0; 0; 0; 0; 0; 0; 0; 0; 255; 255]
            ++ [load8 4 s; load8 5 s; load8 6 s; load8 7 s])
      ++ replicate 104 0).
  { unfold mapDualMode4To6, swap, fst. rewrite setPort_unfold.
    unfold port. rewrite htons_ntohs by (apply wf_load16; [done | vm_compute; lia]).
    unfold sin_port, sin_port_offset, sin_addr_offset.
    rewrite store16_load16 by (try done; vm_compute; lia).
    rewrite !(store8_byte _ (load8 _ s)) by (apply Hb; simpl; lia).
    simpl Nat.add.
    generalize (load8 2 s) (load8 3 s) (load8 4 s) (load8 5 s) (load8 6 s) (load8 7 s).
    intros. reflexivity. }
  split_and!.
  - exact E.
  - rewrite E. reflexivity.
  - rewrite E. reflexivity.
  - rewrite E. simpl. unfold sin_addr_offset, load8.
    do 8 (destruct s as [|? s]; [simpl in Hlen; lia |]). reflexivity.
Qed.

(** The scenario of the specification: 1.2.3.4:80 becomes ::ffff:1.2.3.4
    with port 80. *)
Lemma mapDualMode4To6_spec_witness :
  mapDualMode4To6 endpoint_1_2_3_4_80 =
    [23; 0; 0; 80; 0; 0; 0; 0]
      ++ ([0; 0; 0; 0; 0; 0; 0; 0; 0; 0; 255; 255] ++ [1; 2; 3; 4])
      ++ replicate 104 0 ∧
  port endpoint_1_2_3_4_80 = 80 ∧
  port (mapDualMode4To6 endpoint_1_2_3_4_80) = 80.
Proof.
  pose proof (mapDualMode4To6_spec endpoint_1_2_3_4_80 wf_endpoint_1_2_3_4_80 eq_refl)
    as (E & _ & P & _).
  split_and!; [exact E | reflexivity | exact P].
Defined.

(** ** Move construction and move assignment *)

(** Move assignment from another object copies the whole buffer and leaves
    the source all zero. *)
Lemma assign_move_zeroes_source (this inAddr : Sockaddr) :
  length this = SADDR_SIZE → wf inAddr →
  assign_move this inAddr = (inAddr, replicate SADDR_SIZE 0).
Proof.
  intros Hthis Hwf. unfold assign_move.
  rewrite CopyMemory_all by (done || by apply wf_length).
  by rewrite ZeroMemory_all by (by apply wf_length).
Qed.

(** Move construction copies the whole buffer and leaves the source as it
    was. *)
Lemma Sockaddr_move_keeps_source (this inAddr : Sockaddr) :
  length this = SADDR_SIZE → wf inAddr →
  Sockaddr_move this inAddr = (inAddr, inAddr).
Proof.
  intros Hthis Hwf. unfold Sockaddr_move.
  by rewrite CopyMemory_all by (done || by apply wf_length).
Qed.

(** C1. Move construction from the endpoint 1.2.3.4:80 duplicates the
    buffer but does not zero the source: the moved-from instance still holds
    1.2.3.4:80, whereas move assignment from the same source leaves it all
    zero. *)
Theorem Sockaddr_move_source_not_zeroed :
  Sockaddr_move automatic_storage endpoint_1_2_3_4_80
    = (endpoint_1_2_3_4_80, endpoint_1_2_3_4_80) ∧
  endpoint_1_2_3_4_80 ≠ replicate SADDR_SIZE 0 ∧
  family (snd (Sockaddr_move automatic_storage endpoint_1_2_3_4_80)) = AF_INET ∧
  assign_move automatic_storage endpoint_1_2_3_4_80
    = (endpoint_1_2_3_4_80, replicate SADDR_SIZE 0).
Proof.
  split_and!.
  - apply Sockaddr_move_keeps_source; [reflexivity | exact wf_endpoint_1_2_3_4_80].
  - vm_compute. discriminate.
  - reflexivity.
  - apply assign_move_zeroes_source; [reflexivity | exact wf_endpoint_1_2_3_4_80].
Qed.

(** ** Setting the address from a numeric string *)

Lemma setSockaddr_spec (inAddr : list Z) (s : Sockaddr) :
  wf s → Z.of_nat (length inAddr) < 2147483648 →
  setSockaddr inAddr (static_cast_int (Z.of_nat (length inAddr))) s =
    take SADDR_SIZE inAddr ++ replicate (SADDR_SIZE - length inAddr) 0.
Proof.
  intros Hwf Hlen. unfold setSockaddr, static_cast_int, size_t_of_int.
  rewrite ZeroMemory_all by (by apply wf_length).
  set (n := length inAddr) in *.
  replace ((Z.of_nat n + 2147483648) mod 4294967296 - 2147483648) with (Z.of_nat n)
    by (rewrite Z.mod_small; lia).
  rewrite (Z.mod_small (Z.of_nat n)) by lia.
  unfold CopyMemory, SADDR_SIZE, sizeof_SOCKADDR_STORAGE.
  destruct (decide (Z.of_nat n <= Z.of_nat 128)) as [Hle | Hgt].
  - rewrite Nat2Z.id, drop_replicate.
    by rewrite !take_ge by (unfold n in *; lia).
  - rewrite Nat2Z.id, drop_replicate. do 2 f_equal. lia.
Qed.

(** C3, as the code has it. When the lookup succeeds, [setAddress] returns
    true and the whole buffer becomes the looked-up socket address, cut to
    the storage size and padded with zeros: family, address and port field
    are those of the lookup's answer, and the port the instance had is not
    kept.  When the lookup fails, [setAddress] returns false and the
    instance is as it was. *)
Theorem setAddress_spec (GetAddrInfo : string → option (list Z))
    (szAddr : string) (s : Sockaddr) :
  wf s →
  (∀ ai_addr : list Z,
     GetAddrInfo szAddr = Some ai_addr →
     Z.of_nat (length ai_addr) < 2147483648 →
     setAddress GetAddrInfo szAddr s =
       (true, take SADDR_SIZE ai_addr ++ replicate (SADDR_SIZE - length ai_addr) 0)) ∧
  (GetAddrInfo szAddr = None → setAddress GetAddrInfo szAddr s = (false, s)).
Proof.
  intros Hwf. unfold setAddress. split.
  - intros ai_addr -> Hlen. by rewrite setSockaddr_spec.
  - by intros ->.
Qed.

Lemma wf_endpoint_127_0_0_1_8080 : wf endpoint_127_0_0_1_8080.
Proof. apply (bool_decide_unpack _). vm_compute. exact I. Qed.

Lemma setAddress_spec_witness :
  setAddress lookup_127_0_0_1 "127.0.0.1" endpoint_127_0_0_1_8080 =
    (true, [2; 0; 0; 0; 127; 0; 0; 1] ++ replicate 120 0) ∧
  setAddress lookup_127_0_0_1 "not-an-ip" endpoint_127_0_0_1_8080 =
    (false, endpoint_127_0_0_1_8080).
Proof.
  pose proof (setAddress_spec lookup_127_0_0_1 "127.0.0.1" endpoint_127_0_0_1_8080
                wf_endpoint_127_0_0_1_8080) as [Hok _].
  pose proof (setAddress_spec lookup_127_0_0_1 "not-an-ip" endpoint_127_0_0_1_8080
                wf_endpoint_127_0_0_1_8080) as [_ Hfail].
  split.
  - apply (Hok _ eq_refl). vm_compute. reflexivity.
  - apply Hfail. reflexivity.
Defined.

(** C3, as stated, fails: the instance 127.0.0.1:8080 set from the text
    127.0.0.1, which encodes no port, ends with port 0. *)
Lemma setAddress_port_not_kept :
  ∃ s' : Sockaddr,
    setAddress lookup_127_0_0_1 "127.0.0.1" endpoint_127_0_0_1_8080 = (true, s') ∧
    port endpoint_127_0_0_1_8080 = 8080 ∧
    port s' = 0 ∧
    port s' ≠ port endpoint_127_0_0_1_8080.
Proof.
  eexists. split_and!; [reflexivity | reflexivity | reflexivity |].
  vm_compute. discriminate.
Qed.

(** ** Rendering with the scope trimmed *)

Section Find.
Implicit Types (a pre rest : list Z) (c : Z) (n first k : nat).

Lemma find_loop_miss n a first c :
  (∀ i : nat, (first ≤ i < first + n)%nat → a !! i ≠ Some c) →
  find_loop n a first c = (first + n)%nat.
Proof.
  revert first. induction n as [|n IH]; intros first Hmiss; simpl.
  - lia.
  - destruct (decide (a !! first = Some c)) as [Hhit | _].
    + by destruct (Hmiss first ltac:(lia)).
    + rewrite IH; [lia |]. intros i Hi. apply Hmiss. lia.
Qed.

Lemma find_loop_hit n k a first c :
  (∀ i : nat, (first ≤ i < first + k)%nat → a !! i ≠ Some c) →
  a !! (first + k)%nat = Some c → (k < n)%nat →
  find_loop n a first c = (first + k)%nat.
Proof.
  revert n first. induction k as [|k IH]; intros n first Hmiss Hhit Hk.
  - destruct n as [|n]; [lia |]. simpl. rewrite Nat.add_0_r in Hhit.
    destruct (decide (a !! first = Some c)); [lia | done].
  - destruct n as [|n]; [lia |]. simpl.
    destruct (decide (a !! first = Some c)) as [Hfirst | _].
    + by destruct (Hmiss first ltac:(lia)).
    + rewrite (IH n (S first)); [lia | | | lia].
      * intros i Hi. apply Hmiss. lia.
      * by replace (S first + k)%nat with (first + S k)%nat by lia.
Qed.

Lemma std_find_first pre c rest n :
  c ∉ pre → (length pre < n)%nat →
  std_find (pre ++ c :: rest) 0 n c = length pre.
Proof.
  intros Hpre Hn. unfold std_find.
  rewrite (find_loop_hit _ (length pre)); [done | | | lia].
  - intros i Hi Hlook. apply Hpre.
    rewrite lookup_app_l in Hlook by lia. by eapply list_elem_of_lookup_2.
  - simpl. by rewrite list_lookup_middle.
Qed.

Lemma std_find_none a c n :
  c ∉ take n a → std_find a 0 n c = n.
Proof.
  intros Hnone. unfold std_find. rewrite find_loop_miss; [lia |].
  intros i Hi Hlook. apply Hnone.
  apply (list_elem_of_lookup_2 _ i). rewrite lookup_take_lt by lia. done.
Qed.

End Find.

Section Loops.
Implicit Types (a : list Z) (fuel k sp mp : nat).

Lemma shift_loop_spec k : ∀ fuel a sp mp,
  (k ≤ fuel)%nat → (sp ≤ mp)%nat → (mp + k ≤ length a)%nat →
  shift_loop fuel a sp mp (mp + k) =
    Some (take sp a ++ take k (drop mp a) ++ drop (sp + k) a).
Proof.
  induction k as [|k IH]; intros fuel a sp mp Hfuel Hsp Hlen.
  - rewrite !Nat.add_0_r. destruct fuel; simpl;
      (destruct (decide (mp ≠ mp)); [done |]); by rewrite take_drop.
  - destruct fuel as [|fuel]; [lia |]. simpl.
    destruct (decide (mp ≠ (mp + S k)%nat)); [| lia].
    unfold deref, assign.
    destruct (lookup_lt_is_Some_2 a mp ltac:(lia)) as [c Hc]. rewrite Hc. simpl.
    destruct (decide (sp < length a)%nat); [| lia]. simpl.
    replace (mp + S k)%nat with (S mp + k)%nat by lia.
    rewrite IH by (rewrite ?length_insert; lia).
    rewrite (take_S_r _ sp c) by (apply list_lookup_insert_eq; lia).
    rewrite take_insert_ge by lia.
    rewrite !drop_insert_lt by lia.
    rewrite (drop_S a c mp Hc). simpl.
    rewrite <- app_assoc. simpl.
    by replace (sp + S k)%nat with (S (sp + k)) by lia.
Qed.

Lemma zero_loop_spec k : ∀ fuel a sp,
  (k ≤ fuel)%nat → (sp + k ≤ length a)%nat →
  zero_loop fuel a sp (sp + k) =
    Some (take sp a ++ replicate k chr_nul ++ drop (sp + k) a).
Proof.
  induction k as [|k IH]; intros fuel a sp Hfuel Hlen.
  - rewrite !Nat.add_0_r. destruct fuel; simpl;
      (destruct (decide (sp ≠ sp)); [done |]); by rewrite take_drop.
  - destruct fuel as [|fuel]; [lia |]. simpl.
    destruct (decide (sp ≠ (sp + S k)%nat)); [| lia].
    unfold assign.
    destruct (decide (sp < length a)%nat); [| lia]. simpl.
    replace (sp + S k)%nat with (S sp + k)%nat by lia.
    rewrite IH by (rewrite ?length_insert; lia).
    rewrite (take_S_r _ sp chr_nul) by (apply list_lookup_insert_eq; lia).
    rewrite take_insert_ge by lia.
    rewrite !drop_insert_lt by lia.
    by rewrite <- app_assoc.
Qed.

End Loops.

Lemma c_str_terminated (x y : list Z) :
  chr_nul ∉ x → c_str (x ++ chr_nul :: y) = x.
Proof.
  induction x as [|c x IH]; intros Hx; simpl.
  - by destruct (decide (chr_nul = chr_nul)).
  - apply not_elem_of_cons in Hx as [Hc Hx].
    destruct (decide (c = chr_nul)); [done |]. by rewrite IH.
Qed.

(** The block on a rendered text with a bracket after the scope: the
    characters from the bracket to the end of the rendered text move over
    the scope; what lies beyond the rendered text is neither read nor
    written. *)
Lemma trim_scope_block_shift (pre scope q tail : list Z) :
  chr_percent ∉ pre → chr_rbracket ∉ pre → chr_rbracket ∉ scope →
  trim_scope_block ((pre ++ chr_percent :: scope ++ chr_rbracket :: q) ++ tail)
                   (length (pre ++ chr_percent :: scope ++ chr_rbracket :: q)) =
    Some ((pre ++ chr_rbracket :: q
             ++ drop (length (chr_rbracket :: q))
                  (chr_percent :: scope ++ chr_rbracket :: q))
            ++ tail).
Proof.
  intros Hpct Hbr Hbrs. unfold trim_scope_block.
  pose (mid := chr_percent :: scope). pose (mv := chr_rbracket :: q).
  change (pre ++ chr_percent :: scope ++ chr_rbracket :: q) with (pre ++ mid ++ mv).
  change (chr_percent :: scope ++ chr_rbracket :: q) with (mid ++ mv).
  change (chr_rbracket :: q) with mv.
  set (n := length (pre ++ mid ++ mv)).
  assert (Hn : n = (length pre + length mid + length mv)%nat)
    by (unfold n; rewrite !length_app; lia).
  assert (Hmid : (0 < length mid)%nat) by (simpl; lia).
  assert (Hmv : (0 < length mv)%nat) by (simpl; lia).
  assert (Hscope : std_find ((pre ++ mid ++ mv) ++ tail) 0 n chr_percent = length pre).
  { rewrite <- (app_assoc pre). unfold mid. simpl.
    apply std_find_first; [done | lia]. }
  assert (Hmove : std_find ((pre ++ mid ++ mv) ++ tail) 0 n chr_rbracket
                  = (length pre + length mid)%nat).
  { replace ((pre ++ mid ++ mv) ++ tail) with ((pre ++ mid) ++ chr_rbracket :: (q ++ tail))
      by (unfold mv; by rewrite <- !app_assoc).
    rewrite <- length_app. apply std_find_first; [| rewrite length_app; lia].
    apply not_elem_of_app. split; [done |].
    apply not_elem_of_cons. done. }
  rewrite Hscope, Hmove.
  destruct (decide (length pre ≠ n)); [| lia].
  destruct (decide ((length pre + length mid)%nat ≠ n)); [| lia].
  replace n with ((length pre + length mid) + length mv)%nat at 2 by lia.
  rewrite shift_loop_spec by (rewrite ?length_app; lia).
  f_equal.
  rewrite <- !(app_assoc pre).
  rewrite take_app_length.
  rewrite <- (app_assoc mid mv tail).
  rewrite (drop_app_add pre), drop_app_length.
  rewrite take_app_length.
  rewrite (drop_app_add pre).
  rewrite (app_assoc mid mv tail).
  rewrite (drop_app_le (mid ++ mv)) by (rewrite length_app; lia).
  f_equal. unfold mv at 1. simpl. by rewrite <- app_assoc.
Qed.

(** The block on a rendered text without a bracket: the scope and what
    follows it up to the end of the rendered text become terminators. *)
Lemma trim_scope_block_truncate (pre scope tail : list Z) :
  chr_percent ∉ pre → chr_rbracket ∉ pre → chr_rbracket ∉ scope →
  trim_scope_block ((pre ++ chr_percent :: scope) ++ tail)
                   (length (pre ++ chr_percent :: scope)) =
    Some ((pre ++ replicate (length (chr_percent :: scope)) chr_nul) ++ tail).
Proof.
  intros Hpct Hbr Hbrs. unfold trim_scope_block.
  pose (mid := chr_percent :: scope).
  change (pre ++ chr_percent :: scope) with (pre ++ mid).
  change (chr_percent :: scope) with mid.
  set (n := length (pre ++ mid)).
  assert (Hn : n = (length pre + length mid)%nat) by (unfold n; by rewrite length_app).
  assert (Hmid : (0 < length mid)%nat) by (simpl; lia).
  assert (Hscope : std_find ((pre ++ mid) ++ tail) 0 n chr_percent = length pre).
  { rewrite <- (app_assoc pre). unfold mid. simpl.
    apply std_find_first; [done | lia]. }
  assert (Hmove : std_find ((pre ++ mid) ++ tail) 0 n chr_rbracket = n).
  { apply std_find_none. unfold n. rewrite take_app_length.
    apply not_elem_of_app. split; [done |].
    apply not_elem_of_cons. done. }
  rewrite Hscope, Hmove.
  destruct (decide (length pre ≠ n)); [| lia].
  destruct (decide (n ≠ n)); [done |].
  replace n with (length pre + length mid)%nat by lia.
  rewrite zero_loop_spec by (rewrite ?length_app; lia).
  f_equal.
  rewrite <- !(app_assoc pre).
  rewrite take_app_length.
  by rewrite (drop_app_add pre), drop_app_length.
Qed.

Lemma writeCompleteAddress_trimmed
    (WSAAddressToString : Sockaddr → nat → option (list Z))
    (this : Sockaddr) (address rendered r : list Z) :
  length address = IP_STRING_MAX_LENGTH →
  family this = AF_INET6 →
  WSAAddressToString this IP_STRING_MAX_LENGTH = Some rendered →
  (length rendered ≤ IP_STRING_MAX_LENGTH)%nat →
  (∀ tail : list Z,
     trim_scope_block (rendered ++ tail) (length rendered) = Some (r ++ tail)) →
  writeCompleteAddress WSAAddressToString this address true =
    Some (true, r ++ replicate (IP_STRING_MAX_LENGTH - length rendered) chr_nul).
Proof.
  intros Haddr Hfam Hrender Hlen Hblock. unfold writeCompleteAddress.
  rewrite ZeroMemory_all by done. rewrite Hrender.
  rewrite bool_decide_eq_true_2 by done. simpl andb.
  unfold CopyMemory. rewrite take_ge by done. rewrite drop_replicate.
  by rewrite Hblock.
Qed.

(** C5. [writeCompleteAddress] with [trim_scope] set, on an IPv6 instance
    whose rendered text has a scope.  When a bracket follows the scope (a
    port was appended), the text left in the array is the rendered text with
    the scope segment removed: what precedes the percent sign, then the
    bracket and all that follows it.  When no bracket follows, the text left
    is what precedes the percent sign.  In both cases the trimming block
    yields the same characters whatever lies beyond the rendered length and
    returns that part of the array as it was, so nothing beyond the rendered
    length is read or written. *)
Theorem writeCompleteAddress_trim_scope
    (WSAAddressToString : Sockaddr → nat → option (list Z))
    (this : Sockaddr) (address rendered pre scope : list Z) :
  length address = IP_STRING_MAX_LENGTH →
  family this = AF_INET6 →
  WSAAddressToString this IP_STRING_MAX_LENGTH = Some rendered →
  (length rendered ≤ IP_STRING_MAX_LENGTH)%nat →
  chr_percent ∉ pre → chr_rbracket ∉ pre → chr_nul ∉ pre →
  chr_rbracket ∉ scope →
  (∀ rest : list Z,
     chr_nul ∉ rest →
     rendered = pre ++ chr_percent :: scope ++ chr_rbracket :: rest ++ [chr_nul] →
     ∃ r : list Z,
       length r = length rendered ∧
       (∀ tail : list Z,
          trim_scope_block (rendered ++ tail) (length rendered) = Some (r ++ tail)) ∧
       writeCompleteAddress WSAAddressToString this address true =
         Some (true, r ++ replicate (IP_STRING_MAX_LENGTH - length rendered) chr_nul) ∧
       c_str (r ++ replicate (IP_STRING_MAX_LENGTH - length rendered) chr_nul) =
         pre ++ chr_rbracket :: rest) ∧
  (rendered = pre ++ chr_percent :: scope ++ [chr_nul] →
     ∃ r : list Z,
       length r = length rendered ∧
       (∀ tail : list Z,
          trim_scope_block (rendered ++ tail) (length rendered) = Some (r ++ tail)) ∧
       writeCompleteAddress WSAAddressToString this address true =
         Some (true, r ++ replicate (IP_STRING_MAX_LENGTH - length rendered) chr_nul) ∧
       c_str (r ++ replicate (IP_STRING_MAX_LENGTH - length rendered) chr_nul) = pre).
Proof.
  intros Haddr Hfam Hrender Hlen Hpct Hbr Hnul Hbrs. split.
  - intros rest Hrest Hshape.
    set (q := rest ++ [chr_nul]).
    set (r := pre ++ chr_rbracket :: q
                ++ drop (length (chr_rbracket :: q))
                     (chr_percent :: scope ++ chr_rbracket :: q)).
    assert (Hblock : ∀ tail : list Z,
      trim_scope_block (rendered ++ tail) (length rendered) = Some (r ++ tail)).
    { intros tail. rewrite Hshape. by apply trim_scope_block_shift. }
    exists r. split_and!; [| done | by eapply writeCompleteAddress_trimmed |].
    + rewrite Hshape. unfold r, q.
      repeat (rewrite ?length_app, ?length_drop; simpl). lia.
    + unfold r, q.
      replace ((pre ++ chr_rbracket :: (rest ++ [chr_nul]) ++
                  drop (length (chr_rbracket :: rest ++ [chr_nul]))
                    (chr_percent :: scope ++ chr_rbracket :: rest ++ [chr_nul])) ++
               replicate (IP_STRING_MAX_LENGTH - length rendered) chr_nul)
        with ((pre ++ chr_rbracket :: rest) ++ chr_nul ::
                (drop (length (chr_rbracket :: rest ++ [chr_nul]))
                    (chr_percent :: scope ++ chr_rbracket :: rest ++ [chr_nul]) ++
                 replicate (IP_STRING_MAX_LENGTH - length rendered) chr_nul))
        by (simpl; rewrite <- !app_assoc; simpl; by rewrite <- !app_assoc).
      apply c_str_terminated.
      apply not_elem_of_app. split; [done |]. by apply not_elem_of_cons.
  - intros Hshape.
    set (r := pre ++ replicate (length (chr_percent :: scope ++ [chr_nul])) chr_nul).
    assert (Hblock : ∀ tail : list Z,
      trim_scope_block (rendered ++ tail) (length rendered) = Some (r ++ tail)).
    { intros tail. rewrite Hshape.
      apply (trim_scope_block_truncate pre (scope ++ [chr_nul])); [done | done |].
      apply not_elem_of_app. split; [done |].
      apply not_elem_of_cons. split; [done | apply not_elem_of_nil]. }
    exists r. split_and!; [| done | by eapply writeCompleteAddress_trimmed |].
    + rewrite Hshape. unfold r. rewrite !length_app, length_replicate. done.
    + unfold r. simpl. rewrite <- app_assoc. simpl. by apply c_str_terminated.
Qed.

(** The scenario of the specification: [fe80::1%3]:443 is rendered as
    [fe80::1]:443 when the scope is trimmed. *)
Lemma writeCompleteAddress_trim_scope_witness :
  ∃ r : list Z,
    (∀ tail : list Z,
       trim_scope_block ((code_units "[fe80::1%3]:443" ++ [chr_nul]) ++ tail) 16
         = Some (r ++ tail)) ∧
    writeCompleteAddress render_fe80_1_scope3_443 endpoint_fe80_1_scope3_443
        (replicate IP_STRING_MAX_LENGTH chr_nul) true
      = Some (true, r ++ replicate 49 chr_nul) ∧
    c_str (r ++ replicate 49 chr_nul) = code_units "[fe80::1]:443".
Proof.
  destruct (writeCompleteAddress_trim_scope render_fe80_1_scope3_443
              endpoint_fe80_1_scope3_443 (replicate IP_STRING_MAX_LENGTH chr_nul)
              (code_units "[fe80::1%3]:443" ++ [chr_nul])
              (code_units "[fe80::1") (code_units "3"))
    as [Hport _].
  - reflexivity.
  - reflexivity.
  - reflexivity.
  - vm_compute. lia.
  - apply (bool_decide_unpack _). vm_compute. exact I.
  - apply (bool_decide_unpack _). vm_compute. exact I.
  - apply (bool_decide_unpack _). vm_compute. exact I.
  - apply (bool_decide_unpack _). vm_compute. exact I.
  - destruct (Hport (code_units ":443")) as (r & _ & Hblock & Hwrite & Htext).
    + apply (bool_decide_unpack _). vm_compute. exact I.
    + reflexivity.
    + exists r. split_and!; [exact Hblock | exact Hwrite | exact Htext].
Defined.

(** The same scenario run through the [std::wstring] overloads. *)
Example writeCompleteAddress_wstring_fe80 :
  writeCompleteAddress_wstring render_fe80_1_scope3_443 endpoint_fe80_1_scope3_443 true
    = Some (code_units "[fe80::1]:443") ∧
  writeCompleteAddress_wstring render_fe80_1_scope3_443 endpoint_fe80_1_scope3_443 false
    = Some (code_units "[fe80::1%3]:443").
Proof. split; vm_compute; reflexivity. Qed.

(** ** Comparison, reset and assignment *)

Lemma memcmp_eq_iff (n : nat) : ∀ a b : list Z,
  (n ≤ length a)%nat → (n ≤ length b)%nat →
  memcmp a b n = 0 ↔ take n a = take n b.
Proof.
  induction n as [|n IH]; intros a b Ha Hb.
  - rewrite !take_0. destruct a; simpl; by split.
  - destruct a as [|x a]; [simpl in Ha; lia |].
    destruct b as [|y b]; [simpl in Hb; lia |].
    simpl in *. destruct (Z.ltb_spec x y) as [Hlt | Hge].
    + split; [done | intros [= -> _]; lia].
    + destruct (Z.ltb_spec y x) as [Hlt | Hle].
      * split; [done | intros [= -> _]; lia].
      * assert (x = y) as -> by lia.
        rewrite IH by lia. split; [by intros -> | by intros [= ->]].
Qed.

Lemma equal_true_iff (a b : Sockaddr) :
  length a = SADDR_SIZE → length b = SADDR_SIZE →
  equal a b = true ↔ a = b.
Proof.
  intros Ha Hb. unfold equal. rewrite bool_decide_eq_true.
  split.
  - intros Hcmp. symmetry in Hcmp.
    apply memcmp_eq_iff in Hcmp; [| lia..].
    by rewrite !take_ge in Hcmp by lia.
  - intros ->. by rewrite memcmp_refl.
Qed.

(** X1. [operator==] on two instances answers true exactly when the two
    buffers hold the same bytes, and [operator!=] answers true exactly when
    they differ somewhere. *)
Theorem equal_iff_same_bytes (a b : Sockaddr) :
  length a = SADDR_SIZE → length b = SADDR_SIZE →
  (equal a b = true ↔ a = b) ∧ (not_equal a b = true ↔ a ≠ b).
Proof.
  intros Ha Hb. pose proof (equal_true_iff a b Ha Hb) as Heq.
  split; [done |]. unfold not_equal.
  destruct (equal a b); simpl; split.
  - done.
  - intros Hab. destruct Hab. by apply Heq.
  - intros _ Hab. by apply Heq in Hab.
  - done.
Qed.

Lemma equal_iff_same_bytes_witness :
  equal endpoint_1_2_3_4_80 endpoint_127_0_0_1_8080 = true
    ↔ endpoint_1_2_3_4_80 = endpoint_127_0_0_1_8080.
Proof.
  apply (equal_iff_same_bytes endpoint_1_2_3_4_80 endpoint_127_0_0_1_8080);
    reflexivity.
Defined.

Lemma store16_zeros (v : Z) :
  store16 ss_family_offset v (replicate SADDR_SIZE 0) =
    [v mod 256; (v / 256) mod 256] ++ replicate 126 0.
Proof. reflexivity. Qed.

Lemma to_short_bytes (f : Z) :
  -32768 <= f < 32768 →
  to_short (f mod 256 + 256 * ((f / 256) mod 256)) = f.
Proof.
  intros Hf. unfold to_short.
  replace (f mod 256 + 256 * ((f / 256) mod 256)) with (f mod 65536)
    by (Z.div_mod_to_equations; lia).
  Z.div_mod_to_equations; lia.
Qed.

(** X2. [reset(family)] leaves a buffer that does not depend on what the
    instance held: [family()] returns the argument, the port is 0, and every
    byte after the family field is zero.  It is the buffer of an instance
    constructed from that family. *)
Theorem reset_spec (f : Z) (s storage : Sockaddr) :
  length s = SADDR_SIZE → length storage = SADDR_SIZE →
  -32768 <= f < 32768 →
  family (reset f s) = f ∧
  port (reset f s) = 0 ∧
  (∀ i : nat, (2 ≤ i < SADDR_SIZE)%nat → reset f s !! i = Some 0) ∧
  reset f s = Sockaddr_family storage f.
Proof.
  intros Hs Hst Hf.
  assert (E : reset f s = [f mod 256; (f / 256) mod 256] ++ replicate 126 0).
  { unfold reset. rewrite ZeroMemory_all by done. apply store16_zeros. }
  split_and!.
  - rewrite E. unfold family, ss_family, load16, load8. simpl.
    by apply to_short_bytes.
  - rewrite E. reflexivity.
  - intros i Hi. rewrite E.
    destruct i as [|[|i]]; [lia | lia |].
    change (([f mod 256; (f / 256) mod 256] ++ replicate 126 0) !! S (S i))
      with (replicate 126 0 !! i).
    apply lookup_replicate_2. unfold SADDR_SIZE, sizeof_SOCKADDR_STORAGE in Hi. lia.
  - rewrite E. unfold Sockaddr_family. rewrite ZeroMemory_all by done.
    by rewrite store16_zeros.
Qed.

Lemma reset_spec_witness :
  family (reset AF_INET6 endpoint_1_2_3_4_80) = AF_INET6 ∧
  port (reset AF_INET6 endpoint_1_2_3_4_80) = 0.
Proof.
  destruct (reset_spec AF_INET6 endpoint_1_2_3_4_80 automatic_storage)
    as (Hfamily & Hport & _); [reflexivity | reflexivity | vm_compute; split; congruence |].
  split; [exact Hfamily | exact Hport].
Defined.

(** X3. Copy assignment, which copies into a temporary and swaps, leaves
    [*this] equal to the argument under [operator==] and the argument as it
    was, whatever [*this] held before. *)
Theorem assign_copy_spec (this inAddr : Sockaddr) :
  wf inAddr →
  assign_copy this inAddr = (inAddr, inAddr) ∧
  equal (fst (assign_copy this inAddr)) inAddr = true.
Proof.
  intros Hwf.
  assert (E : assign_copy this inAddr = (inAddr, inAddr)).
  { unfold assign_copy, swap. by rewrite local_copy. }
  split; [done |]. rewrite E. simpl.
  apply equal_true_iff; by try apply wf_length.
Qed.

Lemma assign_copy_spec_witness :
  assign_copy unspecified endpoint_1_2_3_4_80
    = (endpoint_1_2_3_4_80, endpoint_1_2_3_4_80).
Proof. apply (assign_copy_spec unspecified endpoint_1_2_3_4_80 wf_endpoint_1_2_3_4_80). Defined.

(** X4. After a move assignment the moved-from instance is the buffer of a
    default-constructed instance: its family is unspecified, [isAddressAny]
    answers true on it and [isAddressLoopback] ends in the fatal
    condition. *)
Theorem assign_move_source_is_default (this inAddr storage : Sockaddr) :
  length inAddr = SADDR_SIZE → length storage = SADDR_SIZE →
  let moved_from := snd (assign_move this inAddr) in
  moved_from = Sockaddr_family storage AF_UNSPEC ∧
  family moved_from = AF_UNSPEC ∧
  isAddressAny moved_from = (true, moved_from) ∧
  isAddressLoopback moved_from = FatalCondition.
Proof.
  intros Hin Hst moved_from.
  assert (E : moved_from = replicate SADDR_SIZE 0).
  { unfold moved_from, assign_move. simpl. by apply ZeroMemory_all. }
  rewrite E. split_and!; try reflexivity.
  unfold Sockaddr_family. by rewrite ZeroMemory_all.
Qed.

Lemma assign_move_source_is_default_witness :
  isAddressLoopback (snd (assign_move unspecified endpoint_1_2_3_4_80)) = FatalCondition.
Proof.
  apply (assign_move_source_is_default unspecified endpoint_1_2_3_4_80 automatic_storage);
    reflexivity.
Defined.

(** ** Construction from raw socket addresses *)

Lemma size_t_of_int_nonneg (n : Z) :
  0 <= n < 2147483648 → size_t_of_int n = n.
Proof. intros Hn. unfold size_t_of_int. apply Z.mod_small. lia. Qed.

Lemma size_t_of_int_neg (n : Z) :
  -2147483648 <= n < 0 → size_t_of_int n = n + 18446744073709551616.
Proof.
  intros Hn. unfold size_t_of_int. symmetry.
  apply (Z.mod_unique_pos _ _ (-1)); lia.
Qed.

Lemma copy_over_zeros (this inAddr : list Z) (k : nat) :
  length this = SADDR_SIZE →
  CopyMemory (ZeroMemory this SADDR_SIZE) inAddr k =
    take k inAddr ++ replicate (SADDR_SIZE - k) 0.
Proof.
  intros Hthis. rewrite ZeroMemory_all by done.
  unfold CopyMemory. by rewrite drop_replicate.
Qed.

Lemma bounded_length (n : Z) :
  -2147483648 <= n < 2147483648 →
  Z.to_nat (if decide (size_t_of_int n <= Z.of_nat SADDR_SIZE)
            then size_t_of_int n else Z.of_nat SADDR_SIZE) =
  if decide (0 <= n <= 128) then Z.to_nat n else SADDR_SIZE.
Proof.
  intros Hn. unfold SADDR_SIZE, sizeof_SOCKADDR_STORAGE.
  destruct (decide (0 <= n)) as [Hpos | Hneg].
  - rewrite size_t_of_int_nonneg by lia.
    destruct (decide (n <= Z.of_nat 128)), (decide (0 <= n <= 128)); lia.
  - rewrite size_t_of_int_neg by lia.
    destruct (decide (n + 18446744073709551616 <= Z.of_nat 128)),
             (decide (0 <= n <= 128)); lia.
Qed.

(** X5. Construction from a pointer and an [int] length, and
    [setSockaddr] with the same arguments: a length between 0 and the
    storage size copies that many bytes and leaves zeros after them; a
    larger length, and also a negative one, copies the full storage size.
    The result has the storage size whenever the source holds the bytes that
    are copied. *)
Theorem Sockaddr_ptr_int_spec (this inAddr : list Z) (inLength : Z) :
  length this = SADDR_SIZE →
  -2147483648 <= inLength < 2147483648 →
  let k := if decide (0 <= inLength <= 128) then Z.to_nat inLength else SADDR_SIZE in
  Sockaddr_ptr_int this inAddr inLength =
    take k inAddr ++ replicate (SADDR_SIZE - k) 0 ∧
  setSockaddr inAddr inLength this = Sockaddr_ptr_int this inAddr inLength ∧
  ((k ≤ length inAddr)%nat →
     length (Sockaddr_ptr_int this inAddr inLength) = SADDR_SIZE).
Proof.
  intros Hthis Hn k.
  assert (E : Sockaddr_ptr_int this inAddr inLength =
              take k inAddr ++ replicate (SADDR_SIZE - k) 0).
  { unfold Sockaddr_ptr_int. rewrite bounded_length by done.
    by apply copy_over_zeros. }
  split_and!; [done | done |].
  intros Hk. rewrite E, length_app, length_take, length_replicate.
  assert (k ≤ SADDR_SIZE)%nat; [| lia].
  unfold k, SADDR_SIZE, sizeof_SOCKADDR_STORAGE.
  destruct (decide (0 <= inLength <= 128)); lia.
Qed.

Lemma Sockaddr_ptr_int_spec_witness :
  Sockaddr_ptr_int unspecified endpoint_1_2_3_4_80 (-1) = endpoint_1_2_3_4_80 ∧
  Sockaddr_ptr_int unspecified endpoint_1_2_3_4_80 4 =
    [2; 0; 0; 80] ++ replicate 124 0.
Proof.
  split.
  - apply (Sockaddr_ptr_int_spec unspecified endpoint_1_2_3_4_80 (-1)); [reflexivity | lia].
  - apply (Sockaddr_ptr_int_spec unspecified endpoint_1_2_3_4_80 4); [reflexivity | lia].
Defined.

(** X6. The overloads that take a [size_t] length or a [SOCKET_ADDRESS]
    give the buffer of the [int] overload for every length that an [int]
    holds: at most the storage size is copied, and zeros follow a shorter
    copy. *)
Theorem Sockaddr_ptr_size_t_spec (this inAddr : list Z) (inLength : nat) :
  length this = SADDR_SIZE →
  Z.of_nat inLength < 2147483648 →
  Sockaddr_ptr_size_t this inAddr inLength =
    take (inLength `min` SADDR_SIZE) inAddr
      ++ replicate (SADDR_SIZE - inLength) 0 ∧
  Sockaddr_ptr_size_t this inAddr inLength =
    Sockaddr_ptr_int this inAddr (Z.of_nat inLength) ∧
  Sockaddr_socket_address this
      {| lpSockaddr := inAddr; iSockaddrLength := Z.of_nat inLength |} =
    Sockaddr_ptr_int this inAddr (Z.of_nat inLength) ∧
  setSockaddr_socket_address
      {| lpSockaddr := inAddr; iSockaddrLength := Z.of_nat inLength |} this =
    Sockaddr_ptr_int this inAddr (Z.of_nat inLength).
Proof.
  intros Hthis Hn.
  assert (E : Sockaddr_ptr_size_t this inAddr inLength =
    take (inLength `min` SADDR_SIZE) inAddr ++ replicate (SADDR_SIZE - inLength) 0).
  { unfold Sockaddr_ptr_size_t. rewrite copy_over_zeros by done.
    destruct (decide (inLength ≤ SADDR_SIZE)%nat).
    - by rewrite Nat.min_l by lia.
    - rewrite Nat.min_r by lia. do 2 f_equal. lia. }
  split_and!; [done | | done | done].
  rewrite E. unfold Sockaddr_ptr_int. rewrite bounded_length by lia.
  rewrite copy_over_zeros by done.
  unfold SADDR_SIZE, sizeof_SOCKADDR_STORAGE.
  destruct (decide (0 <= Z.of_nat inLength <= 128)).
  - rewrite Nat2Z.id. by rewrite Nat.min_l by lia.
  - rewrite Nat.min_r by lia. do 2 f_equal. lia.
Qed.

Lemma Sockaddr_ptr_size_t_spec_witness :
  Sockaddr_ptr_size_t unspecified endpoint_1_2_3_4_80 200 = endpoint_1_2_3_4_80.
Proof.
  apply (Sockaddr_ptr_size_t_spec unspecified endpoint_1_2_3_4_80 200); [reflexivity | lia].
Defined.

(** X7. Construction from a [SOCKADDR_INET], and [setSockaddr] with it:
    when the union is tagged [AF_INET] only its first 16 bytes reach the
    instance, otherwise, whatever the tag, its first 28 bytes do; zeros
    follow.  Two unions tagged [AF_INET] that agree on their first 16 bytes
    give the same instance. *)
Theorem Sockaddr_inet_spec (this inAddr : list Z) :
  length this = SADDR_SIZE →
  Sockaddr_inet this inAddr =
    (if decide (AF_INET = si_family inAddr)
     then take 16 inAddr ++ replicate 112 0
     else take 28 inAddr ++ replicate 100 0) ∧
  setSockaddr_inet inAddr this = Sockaddr_inet this inAddr ∧
  (AF_INET = si_family inAddr →
     Sockaddr_inet this inAddr = Sockaddr_in this inAddr ∧
     ∀ other : list Z,
       AF_INET = si_family other → take 16 other = take 16 inAddr →
       Sockaddr_inet this other = Sockaddr_inet this inAddr) ∧
  (AF_INET ≠ si_family inAddr →
     Sockaddr_inet this inAddr = Sockaddr_in6 this inAddr).
Proof.
  intros Hthis.
  assert (E : Sockaddr_inet this inAddr =
    (if decide (AF_INET = si_family inAddr)
     then take 16 inAddr ++ replicate 112 0
     else take 28 inAddr ++ replicate 100 0)).
  { unfold Sockaddr_inet.
    destruct (decide (AF_INET = si_family inAddr)); by rewrite copy_over_zeros. }
  split_and!; [done | done | |].
  - intros Hf. split.
    + unfold Sockaddr_inet, Sockaddr_in.
      by destruct (decide (AF_INET = si_family inAddr)).
    + intros other Hother Htake. unfold Sockaddr_inet.
      destruct (decide (AF_INET = si_family other)); [| done].
      destruct (decide (AF_INET = si_family inAddr)); [| done].
      rewrite !copy_over_zeros by done.
      unfold sizeof_SOCKADDR_IN. by rewrite Htake.
  - intros Hf. unfold Sockaddr_inet, Sockaddr_in6.
    by destruct (decide (AF_INET = si_family inAddr)).
Qed.

Lemma Sockaddr_inet_spec_witness :
  Sockaddr_inet unspecified (take 16 endpoint_1_2_3_4_80 ++ replicate 12 255)
    = endpoint_1_2_3_4_80.
Proof.
  destruct (Sockaddr_inet_spec unspecified
              (take 16 endpoint_1_2_3_4_80 ++ replicate 12 255))
    as (E & _); [reflexivity |].
  exact E.
Defined.

(** X8. An instance is reproduced by constructing from its own storage:
    from [sockaddr()] with [length()], from [sockaddr_storage()], and by
    [setSockaddr] with either on any other instance. *)
Theorem construct_from_own_storage (s this : Sockaddr) :
  wf s → length this = SADDR_SIZE →
  length_ s = 128 ∧
  Sockaddr_ptr_int this (sockaddr s) (length_ s) = s ∧
  Sockaddr_storage this s = s ∧
  setSockaddr (sockaddr s) (length_ s) this = s ∧
  setSockaddr_storage s this = s.
Proof.
  intros Hwf Hthis. pose proof (wf_length s Hwf) as Hs.
  assert (E : Sockaddr_ptr_int this (sockaddr s) (length_ s) = s).
  { unfold Sockaddr_ptr_int, sockaddr, length_.
    change (static_cast_int (Z.of_nat SADDR_SIZE)) with 128.
    rewrite bounded_length by lia. rewrite copy_over_zeros by done.
    destruct (decide (0 <= 128 <= 128)); [| lia].
    rewrite take_ge by (rewrite Hs; vm_compute; lia).
    change (SADDR_SIZE - Z.to_nat 128)%nat with 0%nat. apply app_nil_r. }
  split_and!; [reflexivity | done | | done |].
  - by apply CopyMemory_all.
  - by apply CopyMemory_all.
Qed.

Lemma construct_from_own_storage_witness :
  Sockaddr_ptr_int unspecified (sockaddr endpoint_1_2_3_4_80) (length_ endpoint_1_2_3_4_80)
    = endpoint_1_2_3_4_80.
Proof.
  apply (construct_from_own_storage endpoint_1_2_3_4_80 unspecified
           wf_endpoint_1_2_3_4_80).
  reflexivity.
Defined.

(** ** Binary addresses, flow information and scope id *)

Section Frames.
Implicit Types (m bs : list Z) (off i n : nat) (v : Z).

Lemma load8_ext (m1 m2 : list Z) i : m1 !! i = m2 !! i → load8 i m1 = load8 i m2.
Proof. intros H. unfold load8. by rewrite !list_lookup_total_alt, H. Qed.

Lemma load16_ext (m1 m2 : list Z) off :
  m1 !! off = m2 !! off → m1 !! S off = m2 !! S off → load16 off m1 = load16 off m2.
Proof. intros H0 H1. unfold load16. by rewrite (load8_ext _ _ _ H0), (load8_ext _ _ _ H1). Qed.

Lemma load32_ext (m1 m2 : list Z) off :
  (∀ i, (off ≤ i < off + 4)%nat → m1 !! i = m2 !! i) → load32 off m1 = load32 off m2.
Proof.
  intros H. unfold load32.
  rewrite (load16_ext m1 m2 off), (load16_ext m1 m2 (S (S off))); [done | |  | |];
    apply H; lia.
Qed.

Lemma take_drop_ext (m1 m2 : list Z) off n :
  (∀ i, (off ≤ i < off + n)%nat → m1 !! i = m2 !! i) →
  take n (drop off m1) = take n (drop off m2).
Proof.
  intros H. apply list_eq. intros i. rewrite !lookup_take, !lookup_drop.
  destruct (decide (i < n)%nat); [apply H; lia | done].
Qed.

Lemma length_store_bytes bs : ∀ off m, length (store_bytes off bs m) = length m.
Proof.
  induction bs as [|b bs IH]; intros off m; simpl; [done |].
  by rewrite IH, length_store8.
Qed.

Lemma lookup_store_bytes_ne bs : ∀ off m i,
  (i < off ∨ off + length bs ≤ i)%nat → store_bytes off bs m !! i = m !! i.
Proof.
  induction bs as [|b bs IH]; intros off m i Hi; simpl in *; [done |].
  rewrite IH by lia. apply lookup_store8_ne. lia.
Qed.

Lemma store_bytes_spec bs : ∀ off m,
  (off + length bs ≤ length m)%nat → Forall (λ b, 0 <= b < 256) bs →
  store_bytes off bs m = take off m ++ bs ++ drop (off + length bs) m.
Proof.
  induction bs as [|b bs IH]; intros off m Hlen Hbs; simpl in *.
  - rewrite Nat.add_0_r. by rewrite take_drop.
  - apply Forall_cons in Hbs as [Hb Hbs].
    rewrite IH by (rewrite ?length_store8; lia || done).
    rewrite store8_byte by done.
    rewrite (take_S_r _ off b) by (apply list_lookup_insert_eq; lia).
    rewrite take_insert_ge by lia. rewrite drop_insert_lt by lia.
    rewrite <- app_assoc. simpl. do 4 f_equal. lia.
Qed.

Lemma load16_store16_mod off v m :
  (S off < length m)%nat → load16 off (store16 off v m) = v mod 65536.
Proof.
  intros Hoff. unfold load16, store16.
  rewrite load8_store8_ne by lia.
  rewrite !load8_store8_eq by (rewrite ?length_store8; lia).
  Z.div_mod_to_equations; lia.
Qed.

Lemma load32_store32_eq off v m :
  (off + 3 < length m)%nat → 0 <= v < 4294967296 →
  load32 off (store32 off v m) = v.
Proof.
  intros Hoff Hv. unfold load32, store32.
  rewrite load16_store16_ne by lia.
  rewrite !load16_store16_mod by (rewrite ?length_store16; lia).
  Z.div_mod_to_equations; lia.
Qed.

End Frames.

Lemma family_of_bytes (s : Sockaddr) (af : Z) :
  0 <= af < 32768 → ss_family s = af → family s = af.
Proof.
  intros Haf Hss. unfold family. rewrite Hss. unfold to_short.
  Z.div_mod_to_equations; lia.
Qed.

(** X9. [setAddress] from an [IN_ADDR] makes the family IPv4 and stores the
    four address bytes, which [in_addr()] then designates; the port and
    every byte outside the family and address fields stay as they were,
    nothing is zeroed. *)
Theorem setAddress_in_addr_spec (a : list Z) (s : Sockaddr) :
  length s = SADDR_SIZE →
  length a = sizeof_IN_ADDR → Forall (λ b, 0 <= b < 256) a →
  family (setAddress_in_addr a s) = AF_INET ∧
  in_addr (setAddress_in_addr a s) = a ∧
  port (setAddress_in_addr a s) = port s ∧
  (∀ i : nat, (2 ≤ i < 4 ∨ 8 ≤ i)%nat → setAddress_in_addr a s !! i = s !! i) ∧
  length (setAddress_in_addr a s) = SADDR_SIZE.
Proof.
  intros Hs Ha Hbytes.
  unfold SADDR_SIZE, sizeof_SOCKADDR_STORAGE, sizeof_IN_ADDR in *.
  assert (Hframe : ∀ i : nat, (2 ≤ i < 4 ∨ 8 ≤ i)%nat →
                     setAddress_in_addr a s !! i = s !! i).
  { intros i Hi. unfold setAddress_in_addr, sizeof_IN_ADDR, sin_addr_offset.
    rewrite lookup_store_bytes_ne by (rewrite length_take; lia).
    apply lookup_store16_ne; unfold ss_family_offset; lia. }
  split_and!.
  - apply family_of_bytes; [vm_compute; split; congruence |].
    unfold ss_family, setAddress_in_addr, sizeof_IN_ADDR, sin_addr_offset.
    rewrite (load16_ext _ (store16 ss_family_offset AF_INET s))
      by (apply lookup_store_bytes_ne; rewrite length_take; unfold ss_family_offset; lia).
    apply load16_store16_eq; [unfold ss_family_offset; lia | vm_compute; split; congruence].
  - unfold in_addr, setAddress_in_addr, sizeof_IN_ADDR, sin_addr_offset.
    rewrite (take_ge a) by lia.
    rewrite store_bytes_spec by (rewrite ?length_store16; lia || done).
    rewrite drop_app_length' by (rewrite length_take, length_store16; lia).
    by rewrite take_app_length' by lia.
  - unfold port, sin_port, sin_port_offset. f_equal.
    apply load16_ext; apply Hframe; lia.
  - done.
  - unfold setAddress_in_addr. by rewrite length_store_bytes, length_store16.
Qed.

Lemma setAddress_in_addr_spec_witness :
  in_addr (setAddress_in_addr [10; 0; 0; 1] endpoint_fe80_1_scope3_443) = [10; 0; 0; 1] ∧
  port (setAddress_in_addr [10; 0; 0; 1] endpoint_fe80_1_scope3_443) = 443.
Proof.
  destruct (setAddress_in_addr_spec [10; 0; 0; 1] endpoint_fe80_1_scope3_443)
    as (_ & Haddr & Hport & _);
    [reflexivity | reflexivity | repeat constructor; lia |].
  split; [exact Haddr | exact Hport].
Defined.

(** X10. [setAddress] from an [IN6_ADDR] makes the family IPv6 and stores
    the sixteen address bytes; the port and every byte outside the family
    and address fields stay as they were.  So [flowinfo()] and [scopeId()]
    afterwards read what bytes 4 to 7 and 24 to 27 held before, for an
    instance that was IPv4 its old address bytes. *)
Theorem setAddress_in6_addr_spec (a : list Z) (s : Sockaddr) :
  length s = SADDR_SIZE →
  length a = sizeof_IN6_ADDR → Forall (λ b, 0 <= b < 256) a →
  family (setAddress_in6_addr a s) = AF_INET6 ∧
  in6_addr (setAddress_in6_addr a s) = a ∧
  port (setAddress_in6_addr a s) = port s ∧
  flowinfo (setAddress_in6_addr a s) = load32 sin6_flowinfo_offset s ∧
  scopeId (setAddress_in6_addr a s) = load32 sin6_scope_id_offset s ∧
  (∀ i : nat, (2 ≤ i < 8 ∨ 24 ≤ i)%nat → setAddress_in6_addr a s !! i = s !! i).
Proof.
  intros Hs Ha Hbytes.
  unfold SADDR_SIZE, sizeof_SOCKADDR_STORAGE, sizeof_IN6_ADDR in *.
  assert (Hframe : ∀ i : nat, (2 ≤ i < 8 ∨ 24 ≤ i)%nat →
                     setAddress_in6_addr a s !! i = s !! i).
  { intros i Hi. unfold setAddress_in6_addr, sizeof_IN6_ADDR, sin6_addr_offset.
    rewrite lookup_store_bytes_ne by (rewrite length_take; lia).
    apply lookup_store16_ne; unfold ss_family_offset; lia. }
  assert (Hss : ss_family (setAddress_in6_addr a s) = AF_INET6).
  { unfold ss_family, setAddress_in6_addr, sizeof_IN6_ADDR, sin6_addr_offset.
    rewrite (load16_ext _ (store16 ss_family_offset AF_INET6 s))
      by (apply lookup_store_bytes_ne; rewrite length_take; unfold ss_family_offset; lia).
    apply load16_store16_eq; [unfold ss_family_offset; lia | vm_compute; split; congruence]. }
  split_and!.
  - apply family_of_bytes; [vm_compute; split; congruence | done].
  - unfold in6_addr, setAddress_in6_addr, sizeof_IN6_ADDR, sin6_addr_offset.
    rewrite (take_ge a) by lia.
    rewrite store_bytes_spec by (rewrite ?length_store16; lia || done).
    rewrite drop_app_length' by (rewrite length_take, length_store16; lia).
    by rewrite take_app_length' by lia.
  - unfold port, sin_port, sin_port_offset. f_equal.
    apply load16_ext; apply Hframe; lia.
  - unfold flowinfo. rewrite Hss.
    destruct (decide (AF_INET6 = AF_INET6)); [| done].
    apply load32_ext. intros i Hi. apply Hframe.
    unfold sin6_flowinfo_offset in Hi. lia.
  - unfold scopeId. rewrite Hss.
    destruct (decide (AF_INET6 = AF_INET6)); [| done].
    apply load32_ext. intros i Hi. apply Hframe.
    unfold sin6_scope_id_offset in Hi. lia.
  - done.
Qed.

Lemma setAddress_in6_addr_spec_witness :
  flowinfo (setAddress_in6_addr (replicate 15 0 ++ [1]) endpoint_1_2_3_4_80) = 0x04030201 ∧
  port (setAddress_in6_addr (replicate 15 0 ++ [1]) endpoint_1_2_3_4_80) = 80.
Proof.
  destruct (setAddress_in6_addr_spec (replicate 15 0 ++ [1]) endpoint_1_2_3_4_80)
    as (_ & _ & Hport & Hflow & _);
    [reflexivity | reflexivity | repeat constructor; lia |].
  split; [exact Hflow | exact Hport].
Defined.

Lemma wf_endpoint_fe80_1_scope3_443 : wf endpoint_fe80_1_scope3_443.
Proof. apply (bool_decide_unpack _). vm_compute. exact I. Qed.

(** X11. On an IPv6 instance [flowinfo()] after [setFlowInfo(v)] returns
    [v], for every 32-bit [v]; the scope id, the port, the address and the
    family are as before: only bytes 4 to 7 are written. *)
Theorem setFlowInfo_flowinfo (s : Sockaddr) (v : Z) :
  wf s → family s = AF_INET6 → 0 <= v < 4294967296 →
  flowinfo (setFlowInfo v s) = v ∧
  scopeId (setFlowInfo v s) = scopeId s ∧
  port (setFlowInfo v s) = port s ∧
  in6_addr (setFlowInfo v s) = in6_addr s ∧
  family (setFlowInfo v s) = AF_INET6 ∧
  (∀ i : nat, (i < 4 ∨ 8 ≤ i)%nat → setFlowInfo v s !! i = s !! i).
Proof.
  intros Hwf Hfam Hv. destruct (family_cases s Hwf) as [_ H6].
  apply H6 in Hfam. pose proof (wf_length s Hwf) as Hs.
  unfold SADDR_SIZE, sizeof_SOCKADDR_STORAGE in Hs.
  assert (E : setFlowInfo v s = store32 sin6_flowinfo_offset v s).
  { unfold setFlowInfo. by destruct (decide (AF_INET6 = ss_family s)). }
  assert (Hframe : ∀ i : nat, (i < 4 ∨ 8 ≤ i)%nat → setFlowInfo v s !! i = s !! i).
  { intros i Hi. rewrite E. apply lookup_store32_ne. unfold sin6_flowinfo_offset. lia. }
  assert (Hss : ss_family (setFlowInfo v s) = AF_INET6).
  { rewrite Hfam. apply load16_ext; apply Hframe; unfold ss_family_offset; lia. }
  split_and!.
  - unfold flowinfo. rewrite Hss. destruct (decide (AF_INET6 = AF_INET6)); [| done].
    rewrite E. apply load32_store32_eq; [unfold sin6_flowinfo_offset; lia | done].
  - unfold scopeId. rewrite Hss, <- Hfam.
    destruct (decide (AF_INET6 = AF_INET6)); [| done].
    apply load32_ext. intros i Hi. apply Hframe. unfold sin6_scope_id_offset in Hi. lia.
  - unfold port, sin_port, sin_port_offset. f_equal.
    apply load16_ext; apply Hframe; lia.
  - unfold in6_addr. apply take_drop_ext. intros i Hi. apply Hframe.
    unfold sin6_addr_offset, sizeof_IN6_ADDR in Hi. lia.
  - apply family_of_bytes; [vm_compute; split; congruence | done].
  - done.
Qed.

Lemma setFlowInfo_flowinfo_witness :
  flowinfo (setFlowInfo 7 endpoint_fe80_1_scope3_443) = 7 ∧
  scopeId (setFlowInfo 7 endpoint_fe80_1_scope3_443) = 3.
Proof.
  destruct (setFlowInfo_flowinfo endpoint_fe80_1_scope3_443 7
              wf_endpoint_fe80_1_scope3_443)
    as (Hflow & Hscope & _); [reflexivity | lia |].
  split; [exact Hflow | exact Hscope].
Defined.

(** X12. On an IPv6 instance [scopeId()] after [setScopeId(v)] returns [v],
    for every 32-bit [v]; the flow information, the port, the address and
    the family are as before: only bytes 24 to 27 are written. *)
Theorem setScopeId_scopeId (s : Sockaddr) (v : Z) :
  wf s → family s = AF_INET6 → 0 <= v < 4294967296 →
  scopeId (setScopeId v s) = v ∧
  flowinfo (setScopeId v s) = flowinfo s ∧
  port (setScopeId v s) = port s ∧
  in6_addr (setScopeId v s) = in6_addr s ∧
  family (setScopeId v s) = AF_INET6 ∧
  (∀ i : nat, (i < 24 ∨ 28 ≤ i)%nat → setScopeId v s !! i = s !! i).
Proof.
  intros Hwf Hfam Hv. destruct (family_cases s Hwf) as [_ H6].
  apply H6 in Hfam. pose proof (wf_length s Hwf) as Hs.
  unfold SADDR_SIZE, sizeof_SOCKADDR_STORAGE in Hs.
  assert (E : setScopeId v s = store32 sin6_scope_id_offset v s).
  { unfold setScopeId. by destruct (decide (AF_INET6 = ss_family s)). }
  assert (Hframe : ∀ i : nat, (i < 24 ∨ 28 ≤ i)%nat → setScopeId v s !! i = s !! i).
  { intros i Hi. rewrite E. apply lookup_store32_ne. unfold sin6_scope_id_offset. lia. }
  assert (Hss : ss_family (setScopeId v s) = AF_INET6).
  { rewrite Hfam. apply load16_ext; apply Hframe; unfold ss_family_offset; lia. }
  split_and!.
  - unfold scopeId. rewrite Hss. destruct (decide (AF_INET6 = AF_INET6)); [| done].
    rewrite E. apply load32_store32_eq; [unfold sin6_scope_id_offset; lia | done].
  - unfold flowinfo. rewrite Hss, <- Hfam.
    destruct (decide (AF_INET6 = AF_INET6)); [| done].
    apply load32_ext. intros i Hi. apply Hframe. unfold sin6_flowinfo_offset in Hi. lia.
  - unfold port, sin_port, sin_port_offset. f_equal.
    apply load16_ext; apply Hframe; lia.
  - unfold in6_addr. apply take_drop_ext. intros i Hi. apply Hframe.
    unfold sin6_addr_offset, sizeof_IN6_ADDR in Hi. lia.
  - apply family_of_bytes; [vm_compute; split; congruence | done].
  - done.
Qed.

Lemma setScopeId_scopeId_witness :
  scopeId (setScopeId 9 endpoint_fe80_1_scope3_443) = 9 ∧
  port (setScopeId 9 endpoint_fe80_1_scope3_443) = 443.
Proof.
  destruct (setScopeId_scopeId endpoint_fe80_1_scope3_443 9
              wf_endpoint_fe80_1_scope3_443)
    as (Hscope & _ & Hport & _); [reflexivity | lia |].
  split; [exact Hscope | exact Hport].
Defined.

(** X13. Writing back the port an instance reports leaves the instance as
    it is, and of two [setPort] calls in a row only the second shows. *)
Theorem setPort_write_back (s : Sockaddr) :
  wf s →
  setPort (port s) HostOrder s = s ∧
  ∀ (v1 v2 : Z) (o1 o2 : ByteOrder),
    setPort v2 o2 (setPort v1 o1 s) = setPort v2 o2 s.
Proof.
  intros Hwf. pose proof (wf_length s Hwf) as Hs.
  unfold SADDR_SIZE, sizeof_SOCKADDR_STORAGE in Hs. split.
  - rewrite setPort_unfold. unfold port.
    rewrite htons_ntohs by (apply wf_load16; [done | vm_compute; lia]).
    unfold sin_port. rewrite store16_load16 by (done || (vm_compute; lia)).
    unfold load8, sin_port_offset.
    rewrite (list_insert_id s 2) by (apply list_lookup_lookup_total_lt; lia).
    apply list_insert_id. apply list_lookup_lookup_total_lt. lia.
  - intros v1 v2 o1 o2. rewrite !setPort_unfold.
    unfold store16, store8, sin_port_offset.
    rewrite (list_insert_insert_ne _ 2 3) by lia.
    by rewrite !list_insert_insert_eq.
Qed.

Lemma setPort_write_back_witness :
  setPort (port endpoint_1_2_3_4_80) HostOrder endpoint_1_2_3_4_80 = endpoint_1_2_3_4_80.
Proof. apply (setPort_write_back endpoint_1_2_3_4_80 wf_endpoint_1_2_3_4_80). Defined.

(** ** Wildcard and loopback addresses as values *)

Lemma wf_head4 (s : Sockaddr) :
  wf s → s = [load8 0 s; load8 1 s; load8 2 s; load8 3 s] ++ drop 4 s.
Proof.
  intros [Hlen _]. unfold SADDR_SIZE, sizeof_SOCKADDR_STORAGE in Hlen.
  do 4 (destruct s as [|? s]; [simpl in Hlen; lia |]). reflexivity.
Qed.

Lemma family_bytes (s : Sockaddr) (af : Z) :
  wf s → 0 <= af < 256 → af = ss_family s → load8 0 s = af ∧ load8 1 s = 0.
Proof.
  intros Hwf Haf Hss. unfold ss_family, load16, ss_family_offset in Hss.
  pose proof (wf_load8 s 0 Hwf ltac:(vm_compute; lia)).
  pose proof (wf_load8 s 1 Hwf ltac:(vm_compute; lia)). lia.
Qed.

Lemma wf_head4_zeros (b0 b1 b2 b3 : Z) (rest : list Z) :
  0 <= b0 < 256 → 0 <= b1 < 256 → 0 <= b2 < 256 → 0 <= b3 < 256 →
  length rest = 124%nat → Forall (λ b, 0 <= b < 256) rest →
  wf ([b0; b1; b2; b3] ++ rest).
Proof.
  intros H0 H1 H2 H3 Hlen Hrest. split.
  - simpl. rewrite Hlen. reflexivity.
  - simpl. by repeat apply Forall_cons_2.
Qed.

Lemma setAddressAny_inet (s : Sockaddr) :
  wf s → AF_INET = ss_family s →
  setAddressAny s = [2; 0; load8 2 s; load8 3 s] ++ replicate 124 0.
Proof.
  intros Hwf Hf. unfold setAddressAny.
  destruct (decide (AF_INET = ss_family s)); [| done].
  rewrite ZeroMemory_all by (by apply wf_length).
  unfold sin_port, sin_port_offset.
  rewrite store16_load16 by (try done; vm_compute; lia).
  generalize (load8 2 s) (load8 3 s). intros p0 p1. reflexivity.
Qed.

Lemma setAddressAny_inet6 (s : Sockaddr) :
  wf s → AF_INET6 = ss_family s →
  setAddressAny s = [23; 0; load8 2 s; load8 3 s] ++ replicate 124 0.
Proof.
  intros Hwf Hf. unfold setAddressAny.
  destruct (decide (AF_INET = ss_family s)) as [Hf4 | _];
    [rewrite <- Hf4 in Hf; discriminate |].
  destruct (decide (AF_INET6 = ss_family s)); [| done].
  rewrite ZeroMemory_all by (by apply wf_length).
  unfold sin6_port, sin6_port_offset.
  rewrite store16_load16 by (try done; vm_compute; lia).
  generalize (load8 2 s) (load8 3 s). intros p0 p1. reflexivity.
Qed.

Lemma setAddressAny_other (s : Sockaddr) :
  AF_INET ≠ ss_family s → AF_INET6 ≠ ss_family s → setAddressAny s = s.
Proof.
  intros N4 N6. unfold setAddressAny.
  destruct (decide (AF_INET = ss_family s)); [done |].
  by destruct (decide (AF_INET6 = ss_family s)).
Qed.

Lemma wf_setAddressAny (s : Sockaddr) : wf s → wf (setAddressAny s).
Proof.
  intros Hwf.
  pose proof (wf_load8 s 2 Hwf ltac:(vm_compute; lia)) as Hp0.
  pose proof (wf_load8 s 3 Hwf ltac:(vm_compute; lia)) as Hp1.
  destruct (decide (AF_INET = ss_family s)) as [H4 | N4];
    [| destruct (decide (AF_INET6 = ss_family s)) as [H6 | N6]].
  - rewrite setAddressAny_inet by done.
    apply wf_head4_zeros;
      [lia | lia | done | done | apply length_replicate | by apply Forall_replicate].
  - rewrite setAddressAny_inet6 by done.
    apply wf_head4_zeros;
      [lia | lia | done | done | apply length_replicate | by apply Forall_replicate].
  - by rewrite setAddressAny_other.
Qed.

Lemma isAddressAny_unfold (s : Sockaddr) :
  wf s → isAddressAny s = (bool_decide (setAddressAny s = s), s).
Proof.
  intros Hwf. unfold isAddressAny. rewrite local_copy by done. f_equal.
  apply bool_decide_ext. split.
  - intros Hcmp. symmetry in Hcmp.
    apply memcmp_eq_iff in Hcmp;
      [| rewrite (wf_length _ (wf_setAddressAny s Hwf)); done
       | rewrite (wf_length s Hwf); done].
    rewrite !take_ge in Hcmp; [done | |].
    + by rewrite (wf_length s Hwf).
    + by rewrite (wf_length _ (wf_setAddressAny s Hwf)).
  - intros ->. by rewrite memcmp_refl.
Qed.

(** X14. On an IPv4 or IPv6 instance [isAddressAny] answers true exactly
    when every byte after the port field is zero, that is when
    [setAddressAny] would leave the instance as it is.  A nonzero flow
    field, scope id or padding byte makes the answer false. *)
Theorem isAddressAny_iff (s : Sockaddr) :
  wf s → family s = AF_INET ∨ family s = AF_INET6 →
  (fst (isAddressAny s) = true ↔ drop 4 s = replicate 124 0) ∧
  (fst (isAddressAny s) = true ↔ setAddressAny s = s).
Proof.
  intros Hwf Hfam. destruct (family_cases s Hwf) as [H4 H6].
  rewrite isAddressAny_unfold by done. cbn [fst]. rewrite bool_decide_eq_true.
  split; [| done].
  assert (Hshape : ∃ af : Z, 0 <= af < 256 ∧ af = ss_family s ∧
            setAddressAny s = [af; 0; load8 2 s; load8 3 s] ++ replicate 124 0).
  { destruct Hfam as [Hf | Hf].
    - exists 2. apply H4 in Hf.
      split; [lia | split; [done | by apply setAddressAny_inet]].
    - exists 23. apply H6 in Hf.
      split; [lia | split; [done | by apply setAddressAny_inet6]]. }
  destruct Hshape as (af & Haf & Hss & ->).
  destruct (family_bytes s af Hwf Haf Hss) as [Hb0 Hb1].
  assert (Hs : s = [af; 0; load8 2 s; load8 3 s] ++ drop 4 s)
    by (rewrite <- Hb0, <- Hb1 at 1; apply (wf_head4 s Hwf)).
  split.
  - intros Heq. pose proof (eq_trans Heq Hs) as Hboth.
    by apply app_inv_head in Hboth.
  - intros Hd. rewrite <- Hd. symmetry. exact Hs.
Qed.

Lemma isAddressAny_iff_witness :
  fst (isAddressAny endpoint_fe80_1_scope3_443) = true
    ↔ drop 4 endpoint_fe80_1_scope3_443 = replicate 124 0.
Proof.
  apply (isAddressAny_iff endpoint_fe80_1_scope3_443 wf_endpoint_fe80_1_scope3_443).
  right. reflexivity.
Defined.

(** X15. [setAddressAny] is idempotent and keeps port and family; on its
    result [isAddressAny] answers true, for every instance. *)
Theorem setAddressAny_idempotent (s : Sockaddr) :
  wf s →
  setAddressAny (setAddressAny s) = setAddressAny s ∧
  port (setAddressAny s) = port s ∧
  family (setAddressAny s) = family s ∧
  isAddressAny (setAddressAny s) = (true, setAddressAny s).
Proof.
  intros Hwf.
  assert (Hidem : setAddressAny (setAddressAny s) = setAddressAny s
                  ∧ port (setAddressAny s) = port s
                  ∧ family (setAddressAny s) = family s).
  { destruct (decide (AF_INET = ss_family s)) as [H4 | N4];
      [| destruct (decide (AF_INET6 = ss_family s)) as [H6 | N6]].
    - pose proof (wf_setAddressAny s Hwf) as Hwf'.
      rewrite (setAddressAny_inet s Hwf H4) in *. split_and!.
      + rewrite (setAddressAny_inet _ Hwf' eq_refl). reflexivity.
      + reflexivity.
      + unfold family. rewrite <- H4. reflexivity.
    - pose proof (wf_setAddressAny s Hwf) as Hwf'.
      rewrite (setAddressAny_inet6 s Hwf H6) in *. split_and!.
      + rewrite (setAddressAny_inet6 _ Hwf' eq_refl). reflexivity.
      + reflexivity.
      + unfold family. rewrite <- H6. reflexivity.
    - by rewrite !(setAddressAny_other s N4 N6). }
  destruct Hidem as (Hidem & Hport & Hfamily). split_and!; try done.
  rewrite isAddressAny_unfold by (by apply wf_setAddressAny).
  by rewrite bool_decide_eq_true_2.
Qed.

Lemma setAddressAny_idempotent_witness :
  isAddressAny (setAddressAny endpoint_1_2_3_4_80)
    = (true, setAddressAny endpoint_1_2_3_4_80) ∧
  port (setAddressAny endpoint_1_2_3_4_80) = 80.
Proof.
  destruct (setAddressAny_idempotent endpoint_1_2_3_4_80 wf_endpoint_1_2_3_4_80)
    as (_ & Hport & _ & Hany).
  split; [exact Hany | exact Hport].
Defined.

Lemma setAddressLoopback_wf (s l : Sockaddr) :
  wf s → setAddressLoopback s = Returns l →
  wf l ∧ ss_family l = ss_family s ∧
  (AF_INET = ss_family s ∨ AF_INET6 = ss_family s) ∧
  (AF_INET = ss_family s →
     l = [2; 0; load8 2 s; load8 3 s] ++ [127; 0; 0; 1] ++ replicate 120 0) ∧
  (AF_INET6 = ss_family s →
     l = [23; 0; load8 2 s; load8 3 s]
           ++ replicate 4 0 ++ (replicate 15 0 ++ [1]) ++ replicate 104 0).
Proof.
  intros Hwf Hret.
  pose proof (wf_load8 s 2 Hwf ltac:(vm_compute; lia)) as Hp0.
  pose proof (wf_load8 s 3 Hwf ltac:(vm_compute; lia)) as Hp1.
  destruct (decide (AF_INET = ss_family s)) as [H4 | N4];
    [| destruct (decide (AF_INET6 = ss_family s)) as [H6 | N6]].
  - rewrite (setAddressLoopback_inet s Hwf H4) in Hret. injection Hret as <-.
    split_and!; [| by rewrite <- H4 | by left | done
                | intros H6; rewrite <- H4 in H6; discriminate].
    apply (wf_head4_zeros 2 0 _ _ ([127; 0; 0; 1] ++ replicate 120 0));
      [lia | lia | done | done | reflexivity |].
    apply (bool_decide_unpack _). vm_compute. exact I.
  - rewrite (setAddressLoopback_inet6 s Hwf H6) in Hret. injection Hret as <-.
    split_and!; [| by rewrite <- H6 | by right
                | intros H4; rewrite <- H6 in H4; discriminate | done].
    apply (wf_head4_zeros 23 0 _ _
             (replicate 4 0 ++ (replicate 15 0 ++ [1]) ++ replicate 104 0));
      [lia | lia | done | done | reflexivity |].
    apply (bool_decide_unpack _). vm_compute. exact I.
  - by rewrite (setAddressLoopback_other s N4 N6) in Hret.
Qed.

Lemma Returns_inj {A : Type} (a b : A) : Returns a = Returns b → a = b.
Proof. by intros [= ->]. Qed.

Lemma isAddressLoopback_unfold (s : Sockaddr) :
  wf s →
  isAddressLoopback s =
    match setAddressLoopback s with
    | Returns l => Returns (bool_decide (l = s), s)
    | FatalCondition => FatalCondition
    end.
Proof.
  intros Hwf. unfold isAddressLoopback. rewrite local_copy by done.
  destruct (setAddressLoopback s) as [l |] eqn:Hret; [| done].
  destruct (setAddressLoopback_wf s l Hwf Hret) as (Hwfl & _).
  do 2 f_equal. apply bool_decide_ext. split.
  - intros Hcmp. symmetry in Hcmp.
    apply memcmp_eq_iff in Hcmp;
      [| rewrite (wf_length l Hwfl); done | rewrite (wf_length s Hwf); done].
    rewrite !take_ge in Hcmp; [done | |].
    + by rewrite (wf_length s Hwf).
    + by rewrite (wf_length l Hwfl).
  - intros ->. by rewrite memcmp_refl.
Qed.

(** X16. [isAddressLoopback] answers true exactly when [setAddressLoopback]
    would leave the instance as it is: for IPv4 when the bytes after the
    port are 127.0.0.1 and zeros, for IPv6 when they are a zero flow field,
    ::1, a zero scope id and zeros.  The port does not matter; any other
    address byte, and for IPv6 a nonzero flow field or scope id, makes the
    answer false. *)
Theorem isAddressLoopback_iff (s : Sockaddr) :
  wf s →
  (isAddressLoopback s = Returns (true, s) ↔ setAddressLoopback s = Returns s) ∧
  (family s = AF_INET →
     isAddressLoopback s = Returns (true, s)
       ↔ drop 4 s = [127; 0; 0; 1] ++ replicate 120 0) ∧
  (family s = AF_INET6 →
     isAddressLoopback s = Returns (true, s)
       ↔ drop 4 s = replicate 4 0 ++ (replicate 15 0 ++ [1]) ++ replicate 104 0).
Proof.
  intros Hwf. destruct (family_cases s Hwf) as [H4 H6].
  assert (Hiff : isAddressLoopback s = Returns (true, s)
                   ↔ setAddressLoopback s = Returns s).
  { rewrite isAddressLoopback_unfold by done.
    destruct (setAddressLoopback s) as [l |]; [| done]. split.
    - intros [= Hdec]. apply bool_decide_eq_true in Hdec. by rewrite Hdec.
    - intros [= ->]. by rewrite bool_decide_eq_true_2. }
  split_and!; [done | |].
  - intros Hf. apply H4 in Hf. rewrite Hiff.
    rewrite (setAddressLoopback_inet s Hwf Hf).
    destruct (family_bytes s 2 Hwf ltac:(lia) Hf) as [Hb0 Hb1].
    assert (Hs : s = [2; 0; load8 2 s; load8 3 s] ++ drop 4 s)
      by (rewrite <- Hb0, <- Hb1 at 1; apply (wf_head4 s Hwf)).
    change ([2; 0; load8 2 s; load8 3 s; 127; 0; 0; 1] ++ replicate 120 0)
      with ([2; 0; load8 2 s; load8 3 s] ++ [127; 0; 0; 1] ++ replicate 120 0).
    split.
    + intros Heq%Returns_inj. pose proof (eq_trans Heq Hs) as Hboth.
      by apply app_inv_head in Hboth.
    + intros Hd. rewrite <- Hd. f_equal. symmetry. exact Hs.
  - intros Hf. apply H6 in Hf. rewrite Hiff.
    rewrite (setAddressLoopback_inet6 s Hwf Hf).
    destruct (family_bytes s 23 Hwf ltac:(lia) Hf) as [Hb0 Hb1].
    assert (Hs : s = [23; 0; load8 2 s; load8 3 s] ++ drop 4 s)
      by (rewrite <- Hb0, <- Hb1 at 1; apply (wf_head4 s Hwf)).
    change ([23; 0; load8 2 s; load8 3 s; 0; 0; 0; 0]
              ++ (replicate 15 0 ++ [1]) ++ replicate 104 0)
      with ([23; 0; load8 2 s; load8 3 s]
              ++ replicate 4 0 ++ (replicate 15 0 ++ [1]) ++ replicate 104 0).
    split.
    + intros Heq%Returns_inj. pose proof (eq_trans Heq Hs) as Hboth.
      by apply app_inv_head in Hboth.
    + intros Hd. rewrite <- Hd. f_equal. symmetry. exact Hs.
Qed.

Lemma isAddressLoopback_iff_witness :
  isAddressLoopback endpoint_127_0_0_1_8080 = Returns (true, endpoint_127_0_0_1_8080)
    ↔ drop 4 endpoint_127_0_0_1_8080 = [127; 0; 0; 1] ++ replicate 120 0.
Proof.
  apply (isAddressLoopback_iff endpoint_127_0_0_1_8080 wf_endpoint_127_0_0_1_8080).
  reflexivity.
Defined.

(** X17. The result of [setAddressLoopback] is a fixed point of it, is
    reported as loopback by [isAddressLoopback] and is not reported as the
    wildcard by [isAddressAny]. *)
Theorem setAddressLoopback_idempotent (s l : Sockaddr) :
  wf s → setAddressLoopback s = Returns l →
  setAddressLoopback l = Returns l ∧
  isAddressLoopback l = Returns (true, l) ∧
  isAddressAny l = (false, l).
Proof.
  intros Hwf Hret.
  destruct (setAddressLoopback_wf s l Hwf Hret) as (Hwfl & Hss & Hfam & E4 & E6).
  assert (Hfix : setAddressLoopback l = Returns l ∧ setAddressAny l ≠ l).
  { destruct Hfam as [H4 | H6].
    - assert (H4l : AF_INET = ss_family l) by congruence.
      rewrite (setAddressLoopback_inet l Hwfl H4l), (setAddressAny_inet l Hwfl H4l).
      rewrite (E4 H4). split; [reflexivity |].
      intros Heq. apply (f_equal (λ m : list Z, m !! 4%nat)) in Heq. discriminate.
    - assert (H6l : AF_INET6 = ss_family l) by congruence.
      rewrite (setAddressLoopback_inet6 l Hwfl H6l), (setAddressAny_inet6 l Hwfl H6l).
      rewrite (E6 H6). split; [reflexivity |].
      intros Heq. apply (f_equal (λ m : list Z, m !! 23%nat)) in Heq. discriminate. }
  destruct Hfix as [Hfix Hany]. split_and!; [done | |].
  - rewrite isAddressLoopback_unfold by done. rewrite Hfix.
    by rewrite bool_decide_eq_true_2.
  - rewrite isAddressAny_unfold by done. by rewrite bool_decide_eq_false_2.
Qed.

Lemma setAddressLoopback_idempotent_witness :
  isAddressLoopback ([2; 0; 0; 80; 127; 0; 0; 1] ++ replicate 120 0)
    = Returns (true, [2; 0; 0; 80; 127; 0; 0; 1] ++ replicate 120 0).
Proof.
  apply (setAddressLoopback_idempotent endpoint_1_2_3_4_80 _ wf_endpoint_1_2_3_4_80).
  reflexivity.
Defined.

(** ** The mapped address as a value *)

Lemma mapDualMode4To6_bytes (s : Sockaddr) :
  wf s →
  mapDualMode4To6 s =
    [23; 0; load8 2 s; load8 3 s]
      ++ [0; 0; 0; 0; 0; 0; 0; 0; 0; 0; 0; 0; 0; 0; 255; 255;
          load8 4 s; load8 5 s; load8 6 s; load8 7 s]
      ++ replicate 104 0.
Proof.
  intros Hwf.
  assert (Hb : ∀ i : nat, (i < 128)%nat → 0 <= load8 i s < 256)
    by (intros i Hi; by apply wf_load8).
  unfold mapDualMode4To6, swap, fst. rewrite setPort_unfold.
  unfold port. rewrite htons_ntohs by (apply wf_load16; [done | vm_compute; lia]).
  unfold sin_port, sin_port_offset, sin_addr_offset.
  rewrite store16_load16 by (try done; vm_compute; lia).
  rewrite !(store8_byte _ (load8 _ s)) by (apply Hb; simpl; lia).
  simpl Nat.add.
  generalize (load8 2 s) (load8 3 s) (load8 4 s) (load8 5 s) (load8 6 s) (load8 7 s).
  intros. reflexivity.
Qed.

(** X18. [mapDualMode4To6] reads bytes 4 to 7 whatever the family is, and
    its result is never reported as the wildcard or as loopback: mapping
    0.0.0.0 or 127.0.0.1 gives an instance on which [isAddressAny] and
    [isAddressLoopback] both answer false.  Flow information and scope id
    of the result are 0. *)
Theorem mapDualMode4To6_not_any_not_loopback (s : Sockaddr) :
  wf s →
  isAddressAny (mapDualMode4To6 s) = (false, mapDualMode4To6 s) ∧
  isAddressLoopback (mapDualMode4To6 s) = Returns (false, mapDualMode4To6 s) ∧
  flowinfo (mapDualMode4To6 s) = 0 ∧
  scopeId (mapDualMode4To6 s) = 0 ∧
  in6_addr (mapDualMode4To6 s) = take 12 IN6ADDR_V4MAPPEDPREFIX_INIT ++ in_addr s.
Proof.
  intros Hwf.
  assert (Hb : ∀ i : nat, (i < 128)%nat → 0 <= load8 i s < 256)
    by (intros i Hi; by apply wf_load8).
  pose proof (mapDualMode4To6_bytes s Hwf) as E.
  assert (Hwfm : wf (mapDualMode4To6 s)).
  { rewrite E.
    apply wf_head4_zeros; [lia | lia | apply Hb; lia | apply Hb; lia | reflexivity |].
    apply Forall_app. split; [| by apply Forall_replicate].
    repeat (apply Forall_cons_2; [first [lia | apply Hb; lia] |]). apply Forall_nil_2. }
  assert (H6 : AF_INET6 = ss_family (mapDualMode4To6 s)) by (rewrite E; reflexivity).
  split_and!.
  - rewrite isAddressAny_unfold by done. rewrite bool_decide_eq_false_2; [done |].
    rewrite (setAddressAny_inet6 _ Hwfm H6). rewrite E.
    intros Heq. apply (f_equal (λ m : list Z, m !! 18%nat)) in Heq. discriminate.
  - rewrite isAddressLoopback_unfold by done.
    rewrite (setAddressLoopback_inet6 _ Hwfm H6).
    rewrite bool_decide_eq_false_2; [done |]. rewrite E.
    intros Heq. apply (f_equal (λ m : list Z, m !! 18%nat)) in Heq. discriminate.
  - rewrite E. reflexivity.
  - rewrite E. reflexivity.
  - rewrite E. destruct Hwf as [Hlen _].
    unfold SADDR_SIZE, sizeof_SOCKADDR_STORAGE in Hlen.
    do 8 (destruct s as [|? s]; [simpl in Hlen; lia |]). reflexivity.
Qed.

Lemma mapDualMode4To6_not_any_not_loopback_witness :
  isAddressLoopback endpoint_127_0_0_1_8080
    = Returns (true, endpoint_127_0_0_1_8080) ∧
  isAddressLoopback (mapDualMode4To6 endpoint_127_0_0_1_8080)
    = Returns (false, mapDualMode4To6 endpoint_127_0_0_1_8080).
Proof.
  split; [reflexivity |].
  apply (mapDualMode4To6_not_any_not_loopback endpoint_127_0_0_1_8080
           wf_endpoint_127_0_0_1_8080).
Defined.

(** ** Rendering: the cases without trimming, and bounds *)

Lemma length_assign (a a' : list Z) (p : nat) (c : Z) :
  assign a p c = Some a' → length a' = length a.
Proof.
  unfold assign. destruct (decide (p < length a)%nat); [| done].
  intros [= <-]. apply length_insert.
Qed.

Lemma lookup_assign_lt (a a' : list Z) (p i : nat) (c : Z) :
  assign a p c = Some a' → (i < p)%nat → a' !! i = a !! i.
Proof.
  unfold assign. destruct (decide (p < length a)%nat); [| done].
  intros [= <-] Hi. apply list_lookup_insert_ne. lia.
Qed.

Lemma shift_loop_inv (fuel : nat) : ∀ (a a' : list Z) (sp mp e : nat),
  shift_loop fuel a sp mp e = Some a' →
  length a' = length a ∧ ∀ i : nat, (i < sp)%nat → a' !! i = a !! i.
Proof.
  induction fuel as [|fuel IH]; intros a a' sp mp e; simpl;
    destruct (decide (mp ≠ e)); try done; try (by intros [= <-]).
  unfold deref. destruct (a !! mp) as [c |]; [| done]. simpl.
  destruct (assign a sp c) as [a1 |] eqn:Hassign; [| done]. simpl.
  intros Hloop. destruct (IH _ _ _ _ _ Hloop) as [Hlen Hpre]. split.
  - rewrite Hlen. by eapply length_assign.
  - intros i Hi. rewrite Hpre by lia. eapply lookup_assign_lt; [done | lia].
Qed.

Lemma zero_loop_inv (fuel : nat) : ∀ (a a' : list Z) (sp e : nat),
  zero_loop fuel a sp e = Some a' →
  length a' = length a ∧ ∀ i : nat, (i < sp)%nat → a' !! i = a !! i.
Proof.
  induction fuel as [|fuel IH]; intros a a' sp e; simpl;
    destruct (decide (sp ≠ e)); try done; try (by intros [= <-]).
  destruct (assign a sp chr_nul) as [a1 |] eqn:Hassign; [| done]. simpl.
  intros Hloop. destruct (IH _ _ _ _ Hloop) as [Hlen Hpre]. split.
  - rewrite Hlen. by eapply length_assign.
  - intros i Hi. rewrite Hpre by lia. eapply lookup_assign_lt; [done | lia].
Qed.

Lemma trim_scope_block_inv (a a' : list Z) (n : nat) :
  trim_scope_block a n = Some a' →
  length a' = length a ∧
  ∀ i : nat, (i < std_find a 0 n chr_percent)%nat → a' !! i = a !! i.
Proof.
  unfold trim_scope_block.
  destruct (decide (std_find a 0 n chr_percent ≠ n)); [| by intros [= <-]].
  destruct (decide (std_find a 0 n chr_rbracket ≠ n)).
  - apply shift_loop_inv.
  - apply zero_loop_inv.
Qed.

(** X19. Whenever the trimming block gives a result, the array keeps its
    length and the characters before the first percent sign are the ones
    rendered: the block only writes from the percent sign on. *)
Theorem trim_scope_block_keeps_prefix (address trimmed : list Z) (addressLength : nat) :
  trim_scope_block address addressLength = Some trimmed →
  length trimmed = length address ∧
  take (std_find address 0 addressLength chr_percent) trimmed =
    take (std_find address 0 addressLength chr_percent) address.
Proof.
  intros Htrim. destruct (trim_scope_block_inv _ _ _ Htrim) as [Hlen Hpre].
  split; [done |]. apply list_eq. intros i. rewrite !lookup_take.
  destruct (decide (i < std_find address 0 addressLength chr_percent)%nat); [| done].
  by apply Hpre.
Qed.

Lemma trim_scope_block_keeps_prefix_witness :
  take 8 (code_units "[fe80::1]:443" ++ [chr_nul] ++ code_units "3" ++ [chr_nul])
    = take 8 (code_units "[fe80::1%3]:443" ++ [chr_nul]).
Proof.
  apply (trim_scope_block_keeps_prefix
           (code_units "[fe80::1%3]:443" ++ [chr_nul])
           (code_units "[fe80::1]:443" ++ [chr_nul] ++ code_units "3" ++ [chr_nul])
           16).
  vm_compute. reflexivity.
Defined.

Lemma trim_scope_block_no_scope (a : list Z) (n : nat) :
  chr_percent ∉ take n a → trim_scope_block a n = Some a.
Proof.
  intros Hnone. unfold trim_scope_block. rewrite std_find_none by done.
  by destruct (decide (n ≠ n)).
Qed.

(** X20. [writeCompleteAddress] when the rendering call succeeds: without
    [trim_scope] the array holds the rendered characters followed by zeros;
    with [trim_scope] the result is the same when the family is not IPv6 or
    the rendered text has no percent sign.  When the rendering call fails
    the function returns false, with or without [trim_scope]. *)
Theorem writeCompleteAddress_untrimmed
    (WSAAddressToString : Sockaddr → nat → option (list Z))
    (this : Sockaddr) (address : list Z) :
  length address = IP_STRING_MAX_LENGTH →
  (∀ rendered : list Z,
     WSAAddressToString this IP_STRING_MAX_LENGTH = Some rendered →
     (length rendered ≤ IP_STRING_MAX_LENGTH)%nat →
     writeCompleteAddress WSAAddressToString this address false =
       Some (true, rendered ++ replicate (IP_STRING_MAX_LENGTH - length rendered) chr_nul) ∧
     (family this ≠ AF_INET6 ∨ chr_percent ∉ rendered →
        writeCompleteAddress WSAAddressToString this address true =
          writeCompleteAddress WSAAddressToString this address false)) ∧
  (WSAAddressToString this IP_STRING_MAX_LENGTH = None →
     ∀ trim_scope : bool,
       fst <$> writeCompleteAddress WSAAddressToString this address trim_scope =
         Some false).
Proof.
  intros Haddr. split.
  - intros rendered Hrender Hlen.
    assert (Hplain : writeCompleteAddress WSAAddressToString this address false =
      Some (true, rendered ++ replicate (IP_STRING_MAX_LENGTH - length rendered) chr_nul)).
    { unfold writeCompleteAddress. rewrite ZeroMemory_all by done. rewrite Hrender.
      rewrite andb_false_r. unfold CopyMemory.
      by rewrite take_ge, drop_replicate by done. }
    split; [done |]. intros Hcase. rewrite Hplain.
    unfold writeCompleteAddress. rewrite ZeroMemory_all by done. rewrite Hrender.
    unfold CopyMemory. rewrite take_ge, drop_replicate by done.
    destruct (bool_decide (family this = AF_INET6)) eqn:Hdec; simpl; [| done].
    destruct Hcase as [Hfam | Hpct].
    + apply bool_decide_eq_true in Hdec. done.
    + rewrite trim_scope_block_no_scope; [done |]. by rewrite take_app_length.
  - intros Hfail trim_scope. unfold writeCompleteAddress.
    rewrite ZeroMemory_all by done. by rewrite Hfail.
Qed.

Lemma writeCompleteAddress_untrimmed_witness :
  writeCompleteAddress render_ipv4_text endpoint_1_2_3_4_80
      (replicate IP_STRING_MAX_LENGTH chr_nul) true =
    Some (true, (code_units "1.2.3.4:80" ++ [chr_nul]) ++ replicate 54 chr_nul).
Proof.
  destruct (writeCompleteAddress_untrimmed render_ipv4_text endpoint_1_2_3_4_80
              (replicate IP_STRING_MAX_LENGTH chr_nul) eq_refl) as [Hok _].
  destruct (Hok (code_units "1.2.3.4:80" ++ [chr_nul]) eq_refl) as [Hplain Htrim].
  - vm_compute. lia.
  - rewrite Htrim; [exact Hplain |]. left. vm_compute. congruence.
Defined.

Lemma c_str_bound (a : list Z) : ∀ i : nat,
  a !! i = Some chr_nul → (length (c_str a) ≤ i)%nat.
Proof.
  induction a as [|c a IH]; intros i Hi; simpl; [lia |].
  destruct (decide (c = chr_nul)); [simpl; lia |].
  destruct i as [|i]; [simpl in Hi; congruence |].
  simpl in *. specialize (IH i Hi). lia.
Qed.

Lemma c_str_no_nul (a : list Z) : chr_nul ∉ c_str a.
Proof.
  induction a as [|c a IH]; simpl; [apply not_elem_of_nil |].
  destruct (decide (c = chr_nul)); [apply not_elem_of_nil |].
  apply not_elem_of_cons. split; [congruence | done].
Qed.

Lemma c_str_capped (a : list Z) :
  (IP_STRING_MAX_LENGTH ≤ length a)%nat →
  (length (c_str (<[(IP_STRING_MAX_LENGTH - 1)%nat := chr_nul]> a))
     ≤ IP_STRING_MAX_LENGTH - 1)%nat.
Proof.
  intros Hlen. apply c_str_bound. apply list_lookup_insert_eq.
  unfold IP_STRING_MAX_LENGTH in *. lia.
Qed.

(** X21. The texts returned by the [std::wstring] overloads of
    [writeCompleteAddress] and [writeAddress] have at most 64 characters and
    hold no terminator, whatever the rendering call wrote: the last element
    of the array is set to the terminator before the text is read. *)
Theorem wstring_results_bounded
    (WSAAddressToString : Sockaddr → nat → option (list Z))
    (InetNtop : Z → list Z → nat → option (list Z))
    (this : Sockaddr) (trim_scope : bool) :
  (∀ text : list Z,
     writeCompleteAddress_wstring WSAAddressToString this trim_scope = Some text →
     (length text ≤ 64)%nat ∧ chr_nul ∉ text) ∧
  (length (writeAddress_wstring InetNtop this) ≤ 64)%nat ∧
  chr_nul ∉ writeAddress_wstring InetNtop this.
Proof.
  split_and!.
  - intros text. unfold writeCompleteAddress_wstring.
    destruct (writeCompleteAddress WSAAddressToString this
                (replicate IP_STRING_MAX_LENGTH 0) trim_scope)
      as [[flag out] |] eqn:Hwrite; [| done].
    simpl. intros [= <-]. split; [| apply c_str_no_nul].
    apply c_str_capped.
    unfold writeCompleteAddress in Hwrite.
    rewrite ZeroMemory_all in Hwrite by apply length_replicate.
    destruct (WSAAddressToString this IP_STRING_MAX_LENGTH) as [rendered |].
    + assert (Hcopy : (IP_STRING_MAX_LENGTH ≤
                length (CopyMemory (replicate IP_STRING_MAX_LENGTH 0%Z) rendered
                          (length rendered)))%nat).
      { unfold CopyMemory.
        rewrite length_app, length_take, length_drop, length_replicate. lia. }
      destruct (bool_decide (family this = AF_INET6) && trim_scope).
      * destruct (trim_scope_block _ _) as [trimmed |] eqn:Htrim; [| done].
        simpl in Hwrite. injection Hwrite as _ <-.
        destruct (trim_scope_block_inv _ _ _ Htrim) as [Hlen _]. by rewrite Hlen.
      * by injection Hwrite as _ <-.
    + assert (Hout : out = replicate IP_STRING_MAX_LENGTH 0) by congruence.
      rewrite Hout. by rewrite length_replicate.
  - unfold writeAddress_wstring.
    destruct (writeAddress InetNtop this (replicate IP_STRING_MAX_LENGTH 0))
      as [flag out] eqn:Hwrite.
    apply c_str_capped. unfold writeAddress in Hwrite.
    rewrite ZeroMemory_all in Hwrite by apply length_replicate.
    destruct (InetNtop _ _ _) as [text |].
    + assert (Hout : out = CopyMemory (replicate IP_STRING_MAX_LENGTH 0) text (length text))
        by congruence.
      rewrite Hout. unfold CopyMemory.
      rewrite length_app, length_take, length_drop, length_replicate. lia.
    + assert (Hout : out = replicate IP_STRING_MAX_LENGTH 0) by congruence.
      rewrite Hout. by rewrite length_replicate.
  - unfold writeAddress_wstring.
    destruct (writeAddress InetNtop this (replicate IP_STRING_MAX_LENGTH 0)).
    apply c_str_no_nul.
Qed.

Lemma wstring_results_bounded_witness :
  (length (code_units "[fe80::1]:443") ≤ 64)%nat ∧
  chr_nul ∉ code_units "[fe80::1]:443".
Proof.
  destruct (wstring_results_bounded render_fe80_1_scope3_443 (λ _ _ _, None)
              endpoint_fe80_1_scope3_443 true) as [Hbound _].
  apply Hbound. vm_compute. reflexivity.
Defined.

(** ** Rendering the address alone *)

Lemma writeAddress_ext (InetNtop : Z → list Z → nat → option (list Z))
    (a b : Sockaddr) (address : list Z) :
  ss_family a = ss_family b →
  (AF_INET = ss_family a → drop sin_addr_offset a = drop sin_addr_offset b) →
  (AF_INET ≠ ss_family a → drop sin6_addr_offset a = drop sin6_addr_offset b) →
  writeAddress InetNtop a address = writeAddress InetNtop b address.
Proof.
  intros Hss H4 H6. unfold writeAddress. rewrite <- Hss.
  destruct (decide (AF_INET = ss_family a)) as [Hf | Hf].
  - by rewrite (H4 Hf).
  - by rewrite (H6 Hf).
Qed.

(** X22. [writeAddress] renders from the family and from the memory at the
    address field only: setting the port, or the flow information, does not
    change what it returns. *)
Theorem writeAddress_ignores_port_and_flow
    (InetNtop : Z → list Z → nat → option (list Z))
    (s : Sockaddr) (address : list Z) :
  length address = IP_STRING_MAX_LENGTH →
  (∀ (v : Z) (order : ByteOrder),
     writeAddress InetNtop (setPort v order s) address = writeAddress InetNtop s address) ∧
  (∀ v : Z,
     writeAddress InetNtop (setFlowInfo v s) address = writeAddress InetNtop s address).
Proof.
  intros Haddr. split_and!.
  - intros v order. rewrite setPort_unfold.
    unfold store16, store8, sin_port_offset. apply writeAddress_ext.
    + unfold ss_family. apply load16_ext;
        rewrite !list_lookup_insert_ne by (unfold ss_family_offset; lia); done.
    + intros _. unfold sin_addr_offset. by rewrite !drop_insert_lt by lia.
    + intros _. unfold sin6_addr_offset. by rewrite !drop_insert_lt by lia.
  - intros v. unfold setFlowInfo.
    destruct (decide (AF_INET6 = ss_family s)) as [H6 | _]; [| done].
    apply writeAddress_ext.
    + unfold ss_family. apply load16_ext; apply lookup_store32_ne;
        unfold sin6_flowinfo_offset, ss_family_offset; lia.
    + intros H4. exfalso.
      assert (Hsame : ss_family (store32 sin6_flowinfo_offset v s) = ss_family s).
      { unfold ss_family. apply load16_ext; apply lookup_store32_ne;
          unfold sin6_flowinfo_offset, ss_family_offset; lia. }
      rewrite Hsame, <- H6 in H4. discriminate.
    + intros _. unfold store32, store16, store8, sin6_flowinfo_offset, sin6_addr_offset.
      by rewrite !drop_insert_lt by lia.
Qed.

Lemma writeAddress_ignores_port_and_flow_witness :
  writeAddress (λ _ pAddr _, Some (take 4 pAddr)) (setPort 8080 HostOrder endpoint_1_2_3_4_80)
      (replicate IP_STRING_MAX_LENGTH 0) =
    writeAddress (λ _ pAddr _, Some (take 4 pAddr)) endpoint_1_2_3_4_80
      (replicate IP_STRING_MAX_LENGTH 0).
Proof.
  apply (writeAddress_ignores_port_and_flow (λ _ pAddr _, Some (take 4 pAddr))
           endpoint_1_2_3_4_80 (replicate IP_STRING_MAX_LENGTH 0)).
  reflexivity.
Defined.

(** ** Name resolution *)

(** X23. [ResolveName] returns one instance for each entry of the lookup
    result, in the same order, each the entry's socket address cut to the
    storage size and padded with zeros; a lookup that succeeds with no entry
    gives an empty vector.  A failed lookup throws, and the exception carries
    the code read from [WSAGetLastError]. *)
Theorem ResolveName_spec (GetAddrInfoW : string → option (list (list Z)))
    (WSAGetLastError : Z) (name : string) :
  (∀ addr_result : list (list Z),
     GetAddrInfoW name = Some addr_result →
     Forall (λ ai_addr, Z.of_nat (length ai_addr) < 2147483648) addr_result →
     ∃ addrs : list Sockaddr,
       ResolveName GetAddrInfoW WSAGetLastError name = inr addrs ∧
       length addrs = length addr_result ∧
       Forall (λ addr, length addr = SADDR_SIZE) addrs ∧
       ∀ (i : nat) (ai_addr : list Z),
         addr_result !! i = Some ai_addr →
         addrs !! i =
           Some (take SADDR_SIZE ai_addr ++ replicate (SADDR_SIZE - length ai_addr) 0)) ∧
  (GetAddrInfoW name = None →
     ∃ e : Exception,
       ResolveName GetAddrInfoW WSAGetLastError name = inl e ∧ why e = WSAGetLastError).
Proof.
  split.
  - intros addr_result Hlookup Hlens. unfold ResolveName. rewrite Hlookup.
    eexists. split; [reflexivity |].
    assert (Hone : ∀ ai_addr : list Z, Z.of_nat (length ai_addr) < 2147483648 →
      Sockaddr_ptr_int automatic_storage ai_addr (static_cast_int (Z.of_nat (length ai_addr)))
        = take SADDR_SIZE ai_addr ++ replicate (SADDR_SIZE - length ai_addr) 0).
    { intros ai_addr Hlen. unfold Sockaddr_ptr_int, static_cast_int.
      replace ((Z.of_nat (length ai_addr) + 2147483648) mod 4294967296 - 2147483648)
        with (Z.of_nat (length ai_addr)) by (rewrite Z.mod_small; lia).
      rewrite bounded_length by lia. rewrite copy_over_zeros by reflexivity.
      unfold SADDR_SIZE, sizeof_SOCKADDR_STORAGE.
      destruct (decide (0 <= Z.of_nat (length ai_addr) <= 128)).
      - rewrite Nat2Z.id. by rewrite !take_ge by lia.
      - do 2 f_equal. lia. }
    split_and!.
    + apply length_fmap.
    + apply Forall_fmap. eapply Forall_impl; [exact Hlens |].
      intros ai_addr Hlen. simpl. rewrite (Hone ai_addr Hlen).
      rewrite length_app, length_take, length_replicate. lia.
    + intros i ai_addr Hi. rewrite list_lookup_fmap, Hi. simpl. f_equal.
      apply Hone. by apply (Forall_lookup_1 _ _ _ _ Hlens Hi).
  - intros Hfail. unfold ResolveName. rewrite Hfail. by eexists.
Qed.

Lemma ResolveName_spec_witness :
  ∃ addrs : list Sockaddr,
    ResolveName (λ _, Some [take 16 endpoint_127_0_0_1_8080]) 0 "localhost" = inr addrs ∧
    length addrs = 1%nat.
Proof.
  destruct (ResolveName_spec (λ _, Some [take 16 endpoint_127_0_0_1_8080]) 0 "localhost")
    as [Hok _].
  destruct (Hok [take 16 endpoint_127_0_0_1_8080] eq_refl) as (addrs & Hres & Hlen & _).
  - repeat constructor.
  - exists addrs. split; [exact Hres | exact Hlen].
Defined.
